(** * Row generation and separation oracles (lp_row_generation.hpp)

    A shallow embedding of [paal::lp::row_generation] and of the three
    separation oracles [add_max_violated], [add_first_violated] and the
    random-rotate composition.  The callables the templates receive are
    stateful C++ function objects: they are embedded as computations of a
    state-passing monad over the ambient program state. *)

From Stdlib Require Import List Arith Lia Bool NArith PArith ZArith.
Import ListNotations.

Set Implicit Arguments.

(** ** State-passing computations *)

Definition M (S A : Type) : Type := S -> A * S.

Definition ret {S A : Type} (a : A) : M S A := fun s => (a, s).

Definition bind {S A B : Type} (m : M S A) (k : A -> M S B) : M S B :=
  fun s => let (a, s') := m s in k a s'.

Notation "x <- m ;; k" := (bind m (fun x => k))
  (at level 61, m at next level, right associativity).
Notation "m ;;; k" := (bind m (fun _ => k))
  (at level 61, right associativity).

(** ** LP status *)

(** Modelled from the spec: the enumeration [problem_type] of problem_type.h,
    which is not part of the sources at hand.  The document names the values
    OPTIMAL, INFEASIBLE and UNBOUNDED; the loop only tests for OPTIMAL. *)
Inductive problem_type : Type := OPTIMAL | INFEASIBLE | UNBOUNDED.

Definition problem_type_eqb (a b : problem_type) : bool :=
  match a, b with
  | OPTIMAL, OPTIMAL | INFEASIBLE, INFEASIBLE | UNBOUNDED, UNBOUNDED => true
  | _, _ => false
  end.

(** ** The row generation loop

    [do res = solve_lp(); while (res == OPTIMAL && try_add_violated());]
    The loop has no bound of its own, so the embedding counts iterations
    with [fuel] and answers [None] when the fuel runs out. *)
Section RowGeneration.
Context {S : Type}.
Variable try_add_violated : M S bool.
Variable solve_lp : M S problem_type.

Fixpoint row_generation (fuel : nat) (s : S) : option (problem_type * S) :=
  match fuel with
  | 0 => None
  | Datatypes.S fuel' =>
      let (res, s1) := solve_lp s in
      if problem_type_eqb res OPTIMAL then
        let (added, s2) := try_add_violated s1 in
        if added then row_generation fuel' s2 else Some (res, s2)
      else Some (res, s1)
  end.
End RowGeneration.

(** ** Rounds of the loop

    One round is a solve followed, when the status is OPTIMAL, by a call of
    the oracle.  These notions describe a run of the loop round by round. *)
Section Rounds.
Context {S : Type}.
Variable try_add_violated : M S bool.
Variable solve_lp : M S problem_type.

(** The loop goes on after the round started in [s]: the solve is OPTIMAL
    and the oracle has added a row. *)
Definition continues (s : S) : bool :=
  problem_type_eqb (fst (solve_lp s)) OPTIMAL
  && fst (try_add_violated (snd (solve_lp s))).

(** The state a round that goes on leaves. *)
Definition next_round (s : S) : S :=
  snd (try_add_violated (snd (solve_lp s))).

(** The state after [k] rounds that went on. *)
Fixpoint after_rounds (k : nat) (s : S) : S :=
  match k with
  | 0 => s
  | Datatypes.S k' => after_rounds k' (next_round s)
  end.

(** The state the last round, started in [s], leaves: that of the solve when
    its status is not OPTIMAL, that of the oracle call otherwise. *)
Definition last_state (s : S) : S :=
  if problem_type_eqb (fst (solve_lp s)) OPTIMAL
  then snd (try_add_violated (snd (solve_lp s)))
  else snd (solve_lp s).
End Rounds.

(** ** Ranges and iterators

    [boost::counting_range(r)] enumerates the iterators of [r]; an iterator
    is a position together with the element it points to. *)
Definition iterator (Cand : Type) : Type := (nat * Cand)%type.

Definition position {Cand : Type} (it : iterator Cand) : nat := fst it.
Definition deref {Cand : Type} (it : iterator Cand) : Cand := snd it.

Definition counting_range {Cand : Type} (rng : list Cand) : list (iterator Cand) :=
  combine (seq 0 (length rng)) rng.

(** Truth value of an optional: [!how] is [negb (truthy how)]. *)
Definition truthy {A : Type} (o : option A) : bool :=
  match o with Some _ => true | None => false end.

(** ** add_max_violated *)
Section MaxViolated.
Context {S Cand Meas : Type}.
Variable m_get_candidates : M S (list Cand).
Variable m_how_violated : Cand -> M S (option Meas).
Variable m_add_violated : Cand -> M S unit.
Variable m_cmp : option Meas -> option Meas -> bool.

(** One step of the loop body: the new value of [most]. *)
Definition max_step (most : option (option Meas * iterator Cand))
    (how : option Meas) (cand : iterator Cand)
    : option (option Meas * iterator Cand) :=
  if negb (truthy how) then most
  else if negb (truthy most)
          || match most with Some m => m_cmp (fst m) how | None => false end
       then Some (how, cand)
       else most.

Fixpoint max_scan (rng : list (iterator Cand))
    (most : option (option Meas * iterator Cand))
    : M S (option (option Meas * iterator Cand)) :=
  match rng with
  | [] => ret most
  | cand :: rest =>
      how <- m_how_violated (deref cand) ;;
      max_scan rest (max_step most how cand)
  end.

Definition add_max_violated : M S bool :=
  cands <- m_get_candidates ;;
  most <- max_scan (counting_range cands) None ;;
  match most with
  | None => ret false
  | Some m => m_add_violated (deref (snd m)) ;;; ret true
  end.
End MaxViolated.

(** ** add_first_violated *)
Section FirstViolated.
Context {S Cand Meas : Type}.
Variable m_get_candidates : M S (list Cand).
Variable m_how_violated : Cand -> M S (option Meas).
Variable m_add_violated : Cand -> M S unit.
Variable m_reorder_candidates : list Cand -> M S (list Cand).

Fixpoint first_scan (rng : list (iterator Cand)) : M S bool :=
  match rng with
  | [] => ret false
  | c :: rest =>
      how <- m_how_violated (deref c) ;;
      if truthy how then m_add_violated (deref c) ;;; ret true
      else first_scan rest
  end.

Definition add_first_violated : M S bool :=
  cands <- m_get_candidates ;;
  reordered <- m_reorder_candidates cands ;;
  first_scan (counting_range reordered).
End FirstViolated.

(** ** Candidate reorderings *)

(** Modelled from the spec: [utils::identity_functor], the default
    reordering of the first-violated oracle ("default: identity"). *)
Definition identity_functor {S Cand : Type} (rng : list Cand) : M S (list Cand) :=
  ret rng.

(** Modelled from the spec: [utils::rotate] of rotate.h, described as a left
    rotation of the candidate sequence by the given offset: the elements
    from the offset on, followed by the elements before it. *)
Definition rotate {Cand : Type} (rng : list Cand) (n : nat) : list Cand :=
  skipn n rng ++ firstn n rng.

(** [detail::random_rotate]: [d] stands for drawing from
    [std::uniform_int_distribution d(lo, hi)] with the generator [m_g] that the
    functor holds. *)
Section RandomRotate.
Context {S Cand : Type}.
Variable d : nat -> nat -> M S nat.

Definition random_rotate (rng : list Cand) : M S (list Cand) :=
  let len := length rng in
  off <- d 0 len ;;
  ret (rotate rng off).
End RandomRotate.

(** Modelled from the spec: [utils::less], the default comparator ("less
    than"), at the optional measures the oracle hands to it: an empty optional
    is below every value, two values compare by [lt]. *)
Definition less {Meas : Type} (lt : Meas -> Meas -> bool)
    (a b : option Meas) : bool :=
  match b with
  | None => false
  | Some y => match a with None => true | Some x => lt x y end
  end.

(** ** The program state and the external callables

    The callables handed to the templates act on the LP ([lp], the only
    state shared between them) and, for the random rotation, on the generator
    [m_g] held by the functor.  Every call is recorded in [trace], so that
    the number and the order of the calls can be read off a run. *)
Section Traced.
Context {W G Cand Meas : Type}.

Inductive event : Type :=
| EvSolve (res : problem_type)
| EvTry (added : bool)
| EvGet (cands : list Cand)
| EvHow (c : Cand) (how : option Meas)
| EvAdd (c : Cand)
| EvDraw (lo hi v : nat).

Record state : Type := mkState {
  lp : W;
  m_g : G;
  trace : list event
}.

Record env : Type := mkEnv {
  solve_lp : W -> problem_type * W;
  get_candidates : W -> list Cand * W;
  how_violated : Cand -> W -> option Meas * W;
  add_violated : Cand -> W -> W;
  uniform_int_distribution : nat -> nat -> G -> nat * G
}.

Definition on_lp {A : Type} (f : W -> A * W) : M state A :=
  fun s => let (a, w) := f (lp s) in (a, mkState w (m_g s) (trace s)).

Definition on_gen {A : Type} (f : G -> A * G) : M state A :=
  fun s => let (a, g) := f (m_g s) in (a, mkState (lp s) g (trace s)).

(** A callable object with private state [G] acting on the LP. *)
Definition on_both {A : Type} (f : W * G -> A * (W * G)) : M state A :=
  fun s => let (a, wg) := f (lp s, m_g s) in
           (a, mkState (fst wg) (snd wg) (trace s)).

Definition log (ev : event) : M state unit :=
  fun s => (tt, mkState (lp s) (m_g s) (trace s ++ [ev])).

Variable e : env.

Definition t_solve : M state problem_type :=
  res <- on_lp (solve_lp e) ;; log (EvSolve res) ;;; ret res.

Definition t_get : M state (list Cand) :=
  cands <- on_lp (get_candidates e) ;; log (EvGet cands) ;;; ret cands.

Definition t_how (c : Cand) : M state (option Meas) :=
  how <- on_lp (how_violated e c) ;; log (EvHow c how) ;;; ret how.

Definition t_add (c : Cand) : M state unit :=
  on_lp (fun w => (tt, add_violated e c w)) ;;; log (EvAdd c).

Definition t_draw (lo hi : nat) : M state nat :=
  v <- on_gen (uniform_int_distribution e lo hi) ;;
  log (EvDraw lo hi v) ;;; ret v.

Definition t_try (oracle : M state bool) : M state bool :=
  added <- oracle ;; log (EvTry added) ;;; ret added.

(** The three oracle factories, wired to the recorded callables. *)
Definition max_violated_separation_oracle
    (compare_how : option Meas -> option Meas -> bool) : M state bool :=
  add_max_violated t_get t_how t_add compare_how.

Definition first_violated_separation_oracle
    (reorder_candidates : list Cand -> M state (list Cand)) : M state bool :=
  add_first_violated t_get t_how t_add reorder_candidates.

Definition make_random_rotate : list Cand -> M state (list Cand) :=
  random_rotate t_draw.

Definition random_violated_separation_oracle : M state bool :=
  first_violated_separation_oracle make_random_rotate.

(** The measures met when the candidates [cs] are tested one after the
    other from the LP [w], and the LP afterwards. *)
Fixpoint eval_hows (cs : list Cand) (w : W) : list (option Meas) * W :=
  match cs with
  | [] => ([], w)
  | c :: rest =>
      let (h, w1) := how_violated e c w in
      let (hs, w2) := eval_hows rest w1 in
      (h :: hs, w2)
  end.

Definition how_events (cs : list Cand) (hs : list (option Meas)) : list event :=
  map (fun ch => EvHow (fst ch) (snd ch)) (combine cs hs).
End Traced.

Arguments event : clear implicits.
Arguments state : clear implicits.
Arguments env : clear implicits.

(** ** Concrete configurations used to run the model *)

(** An LP given by the list of the rows added so far.  The candidates are a
    fixed pool; a candidate is violated, with the measure [meas] gives it,
    as long as it is not among the rows. *)
Definition pool_env (pool : list nat) (meas : nat -> option nat)
    (draw : nat -> nat -> N -> nat * N) : env (list nat) N nat nat :=
  mkEnv (fun w => (OPTIMAL, w))
        (fun w => (pool, w))
        (fun c w => (if existsb (Nat.eqb c) w then None else meas c, w))
        (fun c w => w ++ [c])
        draw.

(** The same LP with a violation test that ignores the rows: a candidate
    stays violated after it has been added. *)
Definition stubborn_env (pool : list nat) : env (list nat) N nat nat :=
  mkEnv (fun w => (OPTIMAL, w))
        (fun w => (pool, w))
        (fun c w => (Some 1, w))
        (fun c w => w ++ [c])
        (fun lo hi g => (lo, g)).

(** An LP whose first solve already fails. *)
Definition infeasible_env : env (list nat) N nat nat :=
  mkEnv (fun w => (INFEASIBLE, w))
        (fun w => ([0; 1], w))
        (fun c w => (Some 1, w))
        (fun c w => w ++ [c])
        (fun lo hi g => (lo, g)).

(** A generator for concrete runs: the minimal standard linear congruential
    engine, the draw reduced to the interval [lo, hi]. *)
Definition minstd_next (g : N) : N := ((16807 * g) mod 2147483647)%N.

Definition minstd_uniform (lo hi : nat) (g : N) : nat * N :=
  let g' := minstd_next g in
  (lo + N.to_nat (g' mod N.of_nat (hi - lo + 1)), g').

Definition nat_measure (l : list nat) (c : nat) : option nat := nth_error l c.

Definition initial {Cand Meas : Type} (w : list nat) (g : N)
    : state (list nat) N Cand Meas :=
  mkState w g [].

(** Four candidates with the measures 3, 7, 2 and 7. *)
Definition measures_env : env (list nat) N nat nat :=
  pool_env [0; 1; 2; 3] (nat_measure [3; 7; 2; 7]) minstd_uniform.

(** Four candidates of which the last two are violated. *)
Definition short_circuit_env : env (list nat) N nat nat :=
  pool_env [0; 1; 2; 3] (fun c => if c <? 2 then None else Some 1) minstd_uniform.

(** Two candidates, none violated. *)
Definition satisfied_env : env (list nat) N nat nat :=
  pool_env [0; 1] (fun _ => None) minstd_uniform.

(** No candidate at all. *)
Definition empty_env : env (list nat) N nat nat :=
  pool_env [] (fun _ => Some 1) minstd_uniform.

(** Three candidates, each violated until it is added. *)
Definition three_rows_env : env (list nat) N nat nat :=
  pool_env [0; 1; 2] (fun _ => Some 1) minstd_uniform.

(** Five candidates, none violated. *)
Definition five_env : env (list nat) N nat nat :=
  pool_env [0; 1; 2; 3; 4] (fun _ => None) minstd_uniform.

(** The state in which the loop leaves the LP of [three_rows_env] started
    with the rows 100 and 101, under the first-violated oracle. *)
Definition three_rows_final : state (list nat) N nat nat :=
  mkState [100; 101; 0; 1; 2] 1%N
    [EvSolve OPTIMAL; EvGet [0; 1; 2]; EvHow 0 (Some 1); EvAdd 0; EvTry true;
     EvSolve OPTIMAL; EvGet [0; 1; 2]; EvHow 0 None; EvHow 1 (Some 1);
     EvAdd 1; EvTry true;
     EvSolve OPTIMAL; EvGet [0; 1; 2]; EvHow 0 None; EvHow 1 None;
     EvHow 2 (Some 1); EvAdd 2; EvTry true;
     EvSolve OPTIMAL; EvGet [0; 1; 2]; EvHow 0 None; EvHow 1 None;
     EvHow 2 None; EvTry false].

(** An LP whose solve fails once the candidate 0 has been added. *)
Definition second_solve_fails_env : env (list nat) N nat nat :=
  mkEnv (fun w => (if existsb (Nat.eqb 0) w then INFEASIBLE else OPTIMAL, w))
        (fun w => ([0; 1], w))
        (fun c w => (if existsb (Nat.eqb c) w then None else Some 1, w))
        (fun c w => w ++ [c])
        (fun lo hi g => (lo, g)).

(** An LP whose violation test reads the solution of the last solve: the
    state holds the rows that solution satisfies and the rows added since.  A
    solve takes the added rows into account; a candidate is violated as long
    as the last solution does not satisfy it. *)
Definition deferred_env (pool : list nat) : env (list nat * list nat) N nat nat :=
  mkEnv (fun w => (OPTIMAL, (fst w ++ snd w, [])))
        (fun w => (pool, w))
        (fun c w => (if existsb (Nat.eqb c) (fst w) then None else Some 1, w))
        (fun c w => (fst w, snd w ++ [c]))
        minstd_uniform.

(** An opaque oracle for concrete runs of the loop: its private state counts
    the rows it will still add. *)
Definition countdown_oracle : M (state (list nat) N nat nat) bool :=
  on_both (fun wg : list nat * N =>
             (negb (N.eqb (snd wg) 0), (fst wg ++ [0], N.pred (snd wg)))).

(** ** Observations on traces *)
Section Observations.
Context {Cand Meas : Type}.

Definition is_loop_event (ev : event Cand Meas) : bool :=
  match ev with EvSolve _ | EvTry _ => true | _ => false end.

Definition is_solve (ev : event Cand Meas) : bool :=
  match ev with EvSolve _ => true | _ => false end.

Definition is_added (ev : event Cand Meas) : bool :=
  match ev with EvTry true => true | _ => false end.

Definition is_how (ev : event Cand Meas) : bool :=
  match ev with EvHow _ _ => true | _ => false end.

Definition is_add (ev : event Cand Meas) : bool :=
  match ev with EvAdd _ => true | _ => false end.

Definition is_draw (ev : event Cand Meas) : bool :=
  match ev with EvDraw _ _ _ => true | _ => false end.

(** The calls the loop itself makes, in order. *)
Definition loop_events (tr : list (event Cand Meas)) : list (event Cand Meas) :=
  filter is_loop_event tr.

Definition count (p : event Cand Meas -> bool) (tr : list (event Cand Meas)) : nat :=
  length (filter p tr).

(** [k] rounds in which the solve is optimal and the oracle adds a row. *)
Fixpoint rounds (k : nat) : list (event Cand Meas) :=
  match k with
  | 0 => []
  | Datatypes.S k' => EvSolve OPTIMAL :: EvTry true :: rounds k'
  end.

(** The last round: a failed solve, or an optimal one with no row added. *)
Definition last_round (res : problem_type) : list (event Cand Meas) :=
  if problem_type_eqb res OPTIMAL then [EvSolve OPTIMAL; EvTry false]
  else [EvSolve res].
End Observations.

(** An oracle is quiet when it records no call of the loop's own. *)
Definition quiet {W G Cand Meas : Type} (oracle : M (state W G Cand Meas) bool) : Prop :=
  forall s, loop_events (trace (snd (oracle s))) = loop_events (trace s).

(** The value of [most] after the loop of [add_max_violated] has met the
    measures and iterators [hcs], in order. *)
Fixpoint select_max {Cand Meas : Type} (cmp : option Meas -> option Meas -> bool)
    (hcs : list (option Meas * iterator Cand))
    (most : option (option Meas * iterator Cand))
    : option (option Meas * iterator Cand) :=
  match hcs with
  | [] => most
  | hc :: rest => select_max cmp rest (max_step cmp most (fst hc) (snd hc))
  end.

(** The calls of [how_violated] that answered "not violated" on [cs]. *)
Definition not_violated_events {Cand Meas : Type} (cs : list Cand)
    : list (event Cand Meas) :=
  map (fun c => EvHow c None) cs.

(** A reordering hands back the candidates it was given, all of them and no
    other, leaves the LP alone, and calls neither [how_violated] nor
    [add_violated] nor anything of the loop. *)
Definition reordering {W G Cand Meas : Type}
    (reorder : list Cand -> M (state W G Cand Meas) (list Cand)) : Prop :=
  forall cs s,
    incl cs (fst (reorder cs s)) /\
    incl (fst (reorder cs s)) cs /\
    lp (snd (reorder cs s)) = lp s /\
    exists evs, trace (snd (reorder cs s)) = trace s ++ evs /\
      forall ev, In ev evs ->
        is_how ev = false /\ is_add ev = false /\ is_loop_event ev = false.

(** The contract of [std::uniform_int_distribution d(lo, hi)]: a draw lies in
    the closed interval. *)
Definition draws_in_range {W G Cand Meas : Type} (e : env W G Cand Meas) : Prop :=
  forall lo hi g, lo <= hi ->
    lo <= fst (uniform_int_distribution e lo hi g) <= hi.

(** A strict weak ordering of the measures, as the comparator of the
    max-violated oracle is meant to be. *)
Definition strict_weak_order {Meas : Type}
    (cmp : option Meas -> option Meas -> bool) : Prop :=
  (forall a, cmp a a = false) /\
  (forall a b c, cmp a b = true -> cmp b c = true -> cmp a c = true) /\
  (forall a b c, cmp a c = true -> cmp a b = true \/ cmp b c = true).

(** [b] is a violation, every violation measured before it ([l1]) is strictly
    below it and no violation measured after it ([l2]) is above it: [b] is the
    first of the greatest violations. *)
Definition first_greatest {Meas : Type}
    (cmp : option Meas -> option Meas -> bool)
    (l1 : list (option Meas)) (b : option Meas) (l2 : list (option Meas)) : Prop :=
  truthy b = true /\
  Forall (fun h => truthy h = true -> cmp h b = true /\ cmp b h = false) l1 /\
  Forall (fun h => truthy h = true -> cmp b h = false) l2.

(** ** Where the rotated scan starts *)

(** The position, in the candidate sequence, of the candidate that the scan
    tests first after a rotation by [off]. *)
Definition scan_start {Cand : Type} (rng : list Cand) (off : nat) : option nat :=
  option_map position (hd_error (rotate (counting_range rng) off)).

(** The values [std::uniform_int_distribution d(0, len)] can produce. *)
Definition offsets (len : nat) : list nat := seq 0 (len + 1).

(** The number of offsets for which the scan starts at position [i]. *)
Definition starts_at {Cand : Type} (rng : list Cand) (i : nat) : nat :=
  length (filter (fun off => match scan_start rng off with
                             | Some j => j =? i
                             | None => false
                             end)
                 (offsets (length rng))).

(** ** Violations and their evolution *)
Section Violations.
Context {W G Cand Meas : Type}.
Variable e : env W G Cand Meas.

(** The candidate [c] is violated in the LP [w]. *)
Definition violated (w : W) (c : Cand) : bool :=
  truthy (fst (how_violated e c w)).

(** Going from [w] to [w'] makes no satisfied candidate violated. *)
Definition no_new_violation (w w' : W) : Prop :=
  forall c, violated w' c = true -> violated w c = true.

(** The violation tests do not increase: no callable makes a satisfied
    candidate violated. *)
Definition monotone : Prop :=
  (forall w, no_new_violation w (snd (solve_lp e w))) /\
  (forall w, no_new_violation w (snd (get_candidates e w))) /\
  (forall c w, no_new_violation w (snd (how_violated e c w))) /\
  (forall c w, no_new_violation w (add_violated e c w)).

(** The candidate space is finite: every candidate belongs to [pool]. *)
Definition finite_candidates (pool : list Cand) : Prop :=
  forall w c, In c (fst (get_candidates e w)) -> In c pool.

(** An added constraint is satisfied. *)
Definition add_satisfies : Prop :=
  forall c w, violated (add_violated e c w) c = false.

(** The number of candidates of [pool] that are violated in [w]. *)
Definition violations (pool : list Cand) (w : W) : nat :=
  length (filter (violated w) pool).

(** One call of the oracle adds no violation, and removes one when it
    answers true. *)
Definition progresses (pool : list Cand)
    (oracle : M (state W G Cand Meas) bool) : Prop :=
  forall s,
    no_new_violation (lp s) (lp (snd (oracle s))) /\
    (fst (oracle s) = true ->
     violations pool (lp (snd (oracle s))) < violations pool (lp s)).
End Violations.

(** The candidates handed to [add_violated], in order. *)
Fixpoint added_rows {Cand Meas : Type} (tr : list (event Cand Meas)) : list Cand :=
  match tr with
  | [] => []
  | EvAdd c :: rest => c :: added_rows rest
  | _ :: rest => added_rows rest
  end.

(** A strict weak ordering of the measures themselves, as the less-than
    that the default comparator applies to two values has to be. *)
Definition strict_weak_lt {Meas : Type} (lt : Meas -> Meas -> bool) : Prop :=
  (forall a, lt a a = false) /\
  (forall a b c, lt a b = true -> lt b c = true -> lt a c = true) /\
  (forall a b c, lt a c = true -> lt a b = true \/ lt b c = true).

(** ** Added rows and the next solve *)
Section Resolve.
Context {W G Cand Meas : Type}.
Variable e : env W G Cand Meas.

(** A constraint that has been added is satisfied once the LP has been
    solved again. *)
Definition resolve_satisfies : Prop :=
  forall c w, violated e (snd (solve_lp e (add_violated e c w))) c = false.

End Resolve.

(** ** Tests that only read the LP, and what an oracle call guarantees *)
Section Tests.
Context {W G Cand Meas : Type}.
Variable e : env W G Cand Meas.

(** Measuring a candidate and listing the candidates leave the LP as it is. *)
Definition pure_tests : Prop :=
  (forall c w, snd (how_violated e c w) = w) /\
  (forall w, snd (get_candidates e w) = w).

(** The measures one call of an oracle meets when it tests every candidate,
    in the order of [get_candidates]. *)
Definition measures (s : state W G Cand Meas) : list (option Meas) :=
  fst (eval_hows e (fst (get_candidates e (lp s)))
                   (snd (get_candidates e (lp s)))).

(** A false answer leaves the LP as it is and tells that no candidate of the
    LP is violated. *)
Definition certifies (oracle : M (state W G Cand Meas) bool) : Prop :=
  forall s, fst (oracle s) = false ->
    lp (snd (oracle s)) = lp s /\
    forall c, In c (fst (get_candidates e (lp s))) -> violated e (lp s) c = false.

(** A call records one [add_violated] when it answers true and none when it
    answers false, and no solve. *)
Definition one_row_per_answer (oracle : M (state W G Cand Meas) bool) : Prop :=
  forall s, exists evs,
    trace (snd (oracle s)) = trace s ++ evs /\
    count is_add evs = (if fst (oracle s) then 1 else 0) /\
    count is_solve evs = 0.

(** A call adds no violation; when it answers true it has added one row, a
    candidate that was violated before the call and is satisfied after it;
    when it answers false it has added none. *)
Definition commits_violated (oracle : M (state W G Cand Meas) bool) : Prop :=
  forall s,
    no_new_violation e (lp s) (lp (snd (oracle s))) /\
    exists evs,
      trace (snd (oracle s)) = trace s ++ evs /\
      if fst (oracle s)
      then exists c, added_rows evs = [c] /\
                     violated e (lp s) c = true /\
                     violated e (lp (snd (oracle s))) c = false
      else added_rows evs = [].
End Tests.

(** * Properties *)

(** ** Runs of the recorded callables *)
Section Runs.
Context {W G Cand Meas : Type}.
Variable e : env W G Cand Meas.
Local Notation "'St'" := (state W G Cand Meas) (only parsing).

Lemma t_solve_run (s : St) :
  t_solve e s =
  (fst (solve_lp e (lp s)),
   mkState (snd (solve_lp e (lp s))) (m_g s)
           (trace s ++ [EvSolve (fst (solve_lp e (lp s)))])).
Proof.
  unfold t_solve, bind, on_lp, log, ret.
  destruct (solve_lp e (lp s)); reflexivity.
Qed.

Lemma t_try_run (oracle : M St bool) (s : St) :
  t_try oracle s =
  (fst (oracle s),
   mkState (lp (snd (oracle s))) (m_g (snd (oracle s)))
           (trace (snd (oracle s)) ++ [EvTry (fst (oracle s))])).
Proof.
  unfold t_try, bind, log, ret.
  destruct (oracle s); reflexivity.
Qed.

Lemma t_get_run (s : St) :
  t_get e s =
  (fst (get_candidates e (lp s)),
   mkState (snd (get_candidates e (lp s))) (m_g s)
           (trace s ++ [EvGet (fst (get_candidates e (lp s)))])).
Proof.
  unfold t_get, bind, on_lp, log, ret.
  destruct (get_candidates e (lp s)); reflexivity.
Qed.

Lemma t_how_run (c : Cand) (s : St) :
  t_how e c s =
  (fst (how_violated e c (lp s)),
   mkState (snd (how_violated e c (lp s))) (m_g s)
           (trace s ++ [EvHow c (fst (how_violated e c (lp s)))])).
Proof.
  unfold t_how, bind, on_lp, log, ret.
  destruct (how_violated e c (lp s)); reflexivity.
Qed.

Lemma t_add_run (c : Cand) (s : St) :
  t_add e c s =
  (tt, mkState (add_violated e c (lp s)) (m_g s) (trace s ++ [EvAdd c])).
Proof. reflexivity. Qed.

Lemma t_draw_run (lo hi : nat) (s : St) :
  t_draw e lo hi s =
  (fst (uniform_int_distribution e lo hi (m_g s)),
   mkState (lp s) (snd (uniform_int_distribution e lo hi (m_g s)))
           (trace s ++ [EvDraw lo hi (fst (uniform_int_distribution e lo hi (m_g s)))])).
Proof.
  unfold t_draw, bind, on_gen, log, ret.
  destruct (uniform_int_distribution e lo hi (m_g s)); reflexivity.
Qed.

Lemma loop_events_app (tr tr' : list (event Cand Meas)) :
  loop_events (tr ++ tr') = loop_events tr ++ loop_events tr'.
Proof. apply filter_app. Qed.

Lemma count_app (p : event Cand Meas -> bool) (tr tr' : list (event Cand Meas)) :
  count p (tr ++ tr') = count p tr + count p tr'.
Proof. unfold count. now rewrite filter_app, length_app. Qed.

Lemma count_solve_rounds (k : nat) :
  count is_solve (@rounds Cand Meas k) = k.
Proof. induction k; simpl; auto. unfold count in *; simpl; lia. Qed.

Lemma count_added_rounds (k : nat) :
  count is_added (@rounds Cand Meas k) = k.
Proof. induction k; simpl; auto. unfold count in *; simpl; lia. Qed.

Lemma on_both_quiet (f : W * G -> bool * (W * G)) :
  quiet (on_both (Cand := Cand) (Meas := Meas) f).
Proof. intros s. unfold on_both. destruct (f (lp s, m_g s)); reflexivity. Qed.
End Runs.

(** ** The loop, round by round *)
Section RoundByRound.
Context {S : Type}.
Variable try_add_violated : M S bool.
Variable solve_lp : M S problem_type.
Local Notation "'goes_on'" := (continues try_add_violated solve_lp) (only parsing).
Local Notation "'state_after'" := (after_rounds try_add_violated solve_lp) (only parsing).

Lemma row_generation_unfold (fuel : nat) (s : S) :
  row_generation try_add_violated solve_lp (Datatypes.S fuel) s =
  if goes_on s
  then row_generation try_add_violated solve_lp fuel
         (next_round try_add_violated solve_lp s)
  else Some (fst (solve_lp s), last_state try_add_violated solve_lp s).
Proof.
  simpl. unfold continues, next_round, last_state.
  destruct (solve_lp s) as [res s1]. cbn [fst snd].
  destruct (problem_type_eqb res OPTIMAL); cbn [andb]; [|reflexivity].
  destruct (try_add_violated s1) as [added s2]. cbn [fst snd].
  destruct added; reflexivity.
Qed.

Lemma row_generation_returns (k : nat) :
  forall (s : S) (fuel : nat),
    (forall j, j < k -> goes_on (state_after j s) = true) ->
    goes_on (state_after k s) = false ->
    k < fuel ->
    row_generation try_add_violated solve_lp fuel s =
    Some (fst (solve_lp (state_after k s)),
          last_state try_add_violated solve_lp (state_after k s)).
Proof.
  induction k as [|k IH]; intros s fuel Hon Hstop Hlt;
    (destruct fuel as [|fuel]; [lia|]); rewrite row_generation_unfold.
  - cbn [after_rounds] in Hstop. rewrite Hstop. reflexivity.
  - assert (H0 : 0 < Datatypes.S k) by lia. apply Hon in H0.
    cbn [after_rounds] in H0. rewrite H0. cbn [after_rounds] in Hstop.
    apply IH; [|exact Hstop | lia].
    intros j Hj. apply (Hon (Datatypes.S j)). lia.
Qed.

Lemma row_generation_running (fuel : nat) :
  forall s : S,
    (forall j, j < fuel -> goes_on (state_after j s) = true) ->
    row_generation try_add_violated solve_lp fuel s = None.
Proof.
  induction fuel as [|fuel IH]; intros s Hon; [reflexivity|].
  assert (H0 : 0 < Datatypes.S fuel) by lia. apply Hon in H0.
  cbn [after_rounds] in H0. rewrite row_generation_unfold, H0.
  apply IH. intros j Hj. apply (Hon (Datatypes.S j)). lia.
Qed.
End RoundByRound.

(** ** The row generation loop *)
Section Loop.
Context {W G Cand Meas : Type}.
Variable e : env W G Cand Meas.
Variable oracle : M (state W G Cand Meas) bool.
Local Notation "'St'" := (state W G Cand Meas) (only parsing).
Local Notation "'loop'" := (row_generation (t_try oracle) (t_solve e)) (only parsing).

Lemma count_loop_events (p : event Cand Meas -> bool) (tr : list (event Cand Meas)) :
  (forall ev, p ev = true -> is_loop_event ev = true) ->
  count p (loop_events tr) = count p tr.
Proof.
  intros Hp. unfold count, loop_events.
  induction tr as [|ev tr IH]; simpl; auto.
  destruct (is_loop_event ev) eqn:El; simpl.
  - destruct (p ev); simpl; auto.
  - destruct (p ev) eqn:Ep; simpl; auto.
    apply Hp in Ep. congruence.
Qed.

Lemma is_solve_loop (ev : event Cand Meas) : is_solve ev = true -> is_loop_event ev = true.
Proof. destruct ev; simpl; auto. Qed.

Lemma is_added_loop (ev : event Cand Meas) : is_added ev = true -> is_loop_event ev = true.
Proof. destruct ev; simpl; auto. Qed.

Lemma row_generation_step (fuel : nat) (s : St) :
  loop (Datatypes.S fuel) s =
  let res := fst (solve_lp e (lp s)) in
  let s1 := snd (t_solve e s) in
  if problem_type_eqb res OPTIMAL then
    if fst (oracle s1) then loop fuel (snd (t_try oracle s1))
    else Some (res, snd (t_try oracle s1))
  else Some (res, s1).
Proof.
  simpl. rewrite t_solve_run. simpl.
  destruct (problem_type_eqb _ _); auto.
  rewrite t_try_run. simpl. reflexivity.
Qed.

Lemma loop_shape :
  quiet oracle ->
  forall fuel (s : St) res s',
    loop fuel s = Some (res, s') ->
    exists k, k < fuel /\
      loop_events (trace s') = loop_events (trace s) ++ rounds k ++ last_round res.
Proof.
  intros Hq. induction fuel as [|fuel IH]; intros s res s' H.
  - discriminate.
  - rewrite row_generation_step in H. cbv zeta in H.
    rewrite t_solve_run in H. cbn [fst snd] in H.
    remember (fst (solve_lp e (lp s))) as r eqn:Hr.
    remember (mkState _ _ _) as s1 eqn:Es1 in H.
    assert (Hs1 : loop_events (trace s1) = loop_events (trace s) ++ [EvSolve r]).
    { rewrite Es1. cbn [trace]. now rewrite loop_events_app. }
    clear Es1.
    destruct (problem_type_eqb r OPTIMAL) eqn:Er.
    + assert (Ho : r = OPTIMAL) by (destruct r; simpl in Er; congruence).
      rewrite t_try_run in H. cbn [fst snd] in H.
      destruct (fst (oracle s1)) eqn:Eb.
      * apply IH in H. destruct H as (k & Hk & Htr).
        exists (Datatypes.S k). split; [lia|].
        rewrite Htr. cbn [trace]. rewrite loop_events_app, Hq, Hs1, Ho.
        cbn. now rewrite <- !app_assoc.
      * inversion H; subst res s'; clear H. exists 0. split; [lia|].
        cbn [trace]. rewrite loop_events_app, Hq, Hs1.
        unfold last_round. rewrite Er, Ho. cbn. now rewrite <- app_assoc.
    + inversion H; subst res s'; clear H. exists 0. split; [lia|].
      rewrite Hs1. unfold last_round. now rewrite Er.
Qed.

Lemma loop_budget (budget : W -> G -> nat) :
  quiet oracle ->
  (forall w, fst (solve_lp e w) = OPTIMAL /\
             forall g, budget (snd (solve_lp e w)) g = budget w g) ->
  (forall s : St,
      fst (oracle s) = negb (budget (lp s) (m_g s) =? 0) /\
      budget (lp (snd (oracle s))) (m_g (snd (oracle s))) = pred (budget (lp s) (m_g s))) ->
  forall k fuel (s : St),
    budget (lp s) (m_g s) = k -> k < fuel ->
    exists s', loop fuel s = Some (OPTIMAL, s') /\
      loop_events (trace s') = loop_events (trace s) ++ rounds k ++ last_round OPTIMAL.
Proof.
  intros Hq Hs Ht k fuel. revert k.
  induction fuel as [|fuel IH]; intros k s Hb Hf; [lia|].
  rewrite row_generation_step. cbv zeta.
  destruct (Hs (lp s)) as [Ho Hsb]. rewrite Ho. cbn [problem_type_eqb].
  rewrite t_solve_run. cbn [fst snd]. rewrite Ho.
  remember (mkState _ _ _) as s1 eqn:Es1.
  assert (Hs1 : loop_events (trace s1) = loop_events (trace s) ++ [EvSolve OPTIMAL]).
  { rewrite Es1. cbn [trace]. now rewrite loop_events_app. }
  assert (Hb1 : budget (lp s1) (m_g s1) = k).
  { rewrite Es1. cbn [lp m_g]. now rewrite Hsb. }
  clear Es1.
  destruct (Ht s1) as [Hr Hp]. rewrite Hb1 in Hr, Hp.
  rewrite t_try_run. cbn [fst snd]. rewrite Hr.
  destruct k as [|k]; cbn [Nat.eqb negb].
  - eexists. split; [reflexivity|].
    cbn [trace]. rewrite loop_events_app, Hq, Hs1.
    cbn. now rewrite <- app_assoc.
  - edestruct (IH k) as (s' & Hrun & Htr); [| |exists s'; split; [exact Hrun|]].
    + cbn [lp m_g]. exact Hp.
    + lia.
    + rewrite Htr. cbn [trace]. rewrite loop_events_app, Hq, Hs1.
      cbn. now rewrite <- !app_assoc.
Qed.
Lemma count_last_round (res : problem_type) :
  count is_solve (@last_round Cand Meas res) = 1 /\
  count is_added (@last_round Cand Meas res) = 0.
Proof. unfold last_round. destruct (problem_type_eqb res OPTIMAL); split; reflexivity. Qed.

(** C1: [row_generation] solves at least once, repeats the solve while the
    status is OPTIMAL and the oracle has added a row, and returns the last
    status.  If the first [k] rounds go on (optimal solve, row added) and the
    next one does not, the loop returns, after [k + 1] solves, the status of
    that last solve and the state that round left; as long as every round goes
    on the loop has not returned.  For a run that returns, the calls of the
    loop are [k] rounds of an optimal solve and a successful oracle call
    followed by one last round.  If the first solve is not OPTIMAL the oracle
    is not called and that status is returned at once.  If every solve is
    OPTIMAL and the oracle adds a row exactly three times and then none, the
    loop makes four solves, three oracle calls that add a row, and returns
    OPTIMAL. *)
Theorem row_generation_spec :
  (forall (k : nat) (s : St) (fuel : nat),
      (forall j, j < k ->
         continues (t_try oracle) (t_solve e)
           (after_rounds (t_try oracle) (t_solve e) j s) = true) ->
      continues (t_try oracle) (t_solve e)
        (after_rounds (t_try oracle) (t_solve e) k s) = false ->
      k < fuel ->
      loop fuel s =
      Some (fst (solve_lp e (lp (after_rounds (t_try oracle) (t_solve e) k s))),
            last_state (t_try oracle) (t_solve e)
              (after_rounds (t_try oracle) (t_solve e) k s))) /\
  (forall (fuel : nat) (s : St),
      (forall j, j < fuel ->
         continues (t_try oracle) (t_solve e)
           (after_rounds (t_try oracle) (t_solve e) j s) = true) ->
      loop fuel s = None) /\
  (quiet oracle ->
   forall fuel (s : St) res s',
      loop fuel s = Some (res, s') ->
      exists k, k < fuel /\
        loop_events (trace s') = loop_events (trace s) ++ rounds k ++ last_round res /\
        count is_solve (trace s') = count is_solve (trace s) + Datatypes.S k /\
        count is_added (trace s') = count is_added (trace s) + k) /\
  (forall fuel (s : St),
      fst (solve_lp e (lp s)) <> OPTIMAL ->
      loop (Datatypes.S fuel) s =
      Some (fst (solve_lp e (lp s)),
            mkState (snd (solve_lp e (lp s))) (m_g s)
                    (trace s ++ [EvSolve (fst (solve_lp e (lp s)))]))) /\
  (quiet oracle ->
   forall budget : W -> G -> nat,
      (forall w, fst (solve_lp e w) = OPTIMAL /\
                 forall g, budget (snd (solve_lp e w)) g = budget w g) ->
      (forall s : St,
          fst (oracle s) = negb (budget (lp s) (m_g s) =? 0) /\
          budget (lp (snd (oracle s))) (m_g (snd (oracle s)))
          = pred (budget (lp s) (m_g s))) ->
      forall fuel (s : St),
        budget (lp s) (m_g s) = 3 -> 4 <= fuel ->
        exists s', loop fuel s = Some (OPTIMAL, s') /\
          loop_events (trace s') =
          loop_events (trace s) ++
            [EvSolve OPTIMAL; EvTry true; EvSolve OPTIMAL; EvTry true;
             EvSolve OPTIMAL; EvTry true; EvSolve OPTIMAL; EvTry false] /\
          count is_solve (trace s') = count is_solve (trace s) + 4 /\
          count is_added (trace s') = count is_added (trace s) + 3).
Proof.
  assert (Hcount : forall (s s' : St) k res,
    loop_events (trace s') = loop_events (trace s) ++ rounds k ++ last_round res ->
    count is_solve (trace s') = count is_solve (trace s) + Datatypes.S k /\
    count is_added (trace s') = count is_added (trace s) + k).
  { intros s s' k res Htr.
    rewrite <- (count_loop_events is_solve (trace s') is_solve_loop).
    rewrite <- (count_loop_events is_added (trace s') is_added_loop).
    rewrite Htr, !count_app, count_solve_rounds, count_added_rounds.
    rewrite !(count_loop_events _ (trace s)) by (apply is_solve_loop || apply is_added_loop).
    destruct (count_last_round res) as [-> ->]. lia. }
  split; [|split; [|split; [|split]]].
  - intros k s fuel Hon Hstop Hlt.
    rewrite (@row_generation_returns _ (t_try oracle) (t_solve e) k s fuel Hon Hstop Hlt).
    rewrite t_solve_run. reflexivity.
  - intros fuel s Hon. now apply row_generation_running.
  - intros Hq fuel s res s' H.
    destruct (@loop_shape Hq fuel s res s' H) as (k & Hk & Htr).
    exists k. split; [exact Hk|]. split; [exact Htr|]. eapply Hcount; eauto.
  - intros fuel s Hne. rewrite row_generation_step. cbv zeta.
    rewrite t_solve_run. cbn [fst snd].
    destruct (fst (solve_lp e (lp s))); simpl; congruence.
  - intros Hq budget Hs Ht fuel s Hb Hf.
    destruct (@loop_budget budget Hq Hs Ht 3 fuel s Hb) as (s' & Hrun & Htr); [lia|].
    exists s'. split; [exact Hrun|]. split; [exact Htr|].
    apply (Hcount s s' 3 OPTIMAL). exact Htr.
Qed.
End Loop.

(** Two runs of the loop: one whose second solve fails after a row has been
    added, which returns INFEASIBLE after two solves, and one with an oracle
    that adds three rows. *)
Lemma row_generation_spec_witness :
  row_generation
    (t_try (first_violated_separation_oracle second_solve_fails_env identity_functor))
    (t_solve second_solve_fails_env) 2 (initial [] 1%N)
  = Some (INFEASIBLE,
          mkState [0] 1%N
            [EvSolve OPTIMAL; EvGet [0; 1]; EvHow 0 (Some 1); EvAdd 0; EvTry true;
             EvSolve INFEASIBLE]) /\
  exists s',
    row_generation (t_try countdown_oracle)
      (t_solve three_rows_env)
      4 (initial [100; 101] 3%N) = Some (OPTIMAL, s') /\
    count is_solve (trace s') = 4 /\ count is_added (trace s') = 3.
Proof.
  split.
  - apply (proj1 (row_generation_spec second_solve_fails_env
                    (first_violated_separation_oracle second_solve_fails_env
                       identity_functor))
             1 (initial [] 1%N) 2).
    + intros j Hj. destruct j as [|j]; [reflexivity | lia].
    + reflexivity.
    + lia.
  - assert (Hq : quiet countdown_oracle) by (intros s; reflexivity).
    destruct (row_generation_spec three_rows_env countdown_oracle)
      as (_ & _ & _ & _ & H3).
    destruct (H3 Hq (fun _ g => N.to_nat g)) with (fuel := 4)
        (s := @initial nat nat [100; 101] 3%N) as (s' & Hrun & _ & Hc1 & Hc2).
    + intros w; split; [reflexivity | intros g; reflexivity].
    + intros s; simpl; split.
      * destruct (m_g s) as [|p]; simpl; [reflexivity|].
        pose proof (Pos2Nat.is_pos p) as Hp.
        destruct (Pos.to_nat p); [lia | reflexivity].
      * apply N2Nat.inj_pred.
    + reflexivity.
    + lia.
    + exists s'. split; [exact Hrun|]. split; [exact Hc1 | exact Hc2].
Defined.

(** ** Runs of the oracles *)
Section Oracles.
Context {W G Cand Meas : Type}.
Variable e : env W G Cand Meas.
Local Notation "'St'" := (state W G Cand Meas) (only parsing).

Lemma map_snd_combine_seq (l : list Cand) (a : nat) :
  map snd (combine (seq a (length l)) l) = l.
Proof.
  revert a. induction l as [|x l IH]; intros a; simpl; [reflexivity|].
  now rewrite IH.
Qed.

Lemma map_deref_counting_range (l : list Cand) :
  map deref (counting_range l) = l.
Proof. apply map_snd_combine_seq. Qed.

Lemma length_counting_range (l : list Cand) :
  length (counting_range l) = length l.
Proof. unfold counting_range, iterator. rewrite length_combine, length_seq. lia. Qed.

Lemma eval_hows_length (cs : list Cand) (w : W) :
  length (fst (eval_hows e cs w)) = length cs.
Proof.
  revert w. induction cs as [|c cs IH]; intros w; simpl; [reflexivity|].
  destruct (how_violated e c w) as [h w1].
  specialize (IH w1). destruct (eval_hows e cs w1) as [hs w2].
  simpl in *. now rewrite IH.
Qed.

Lemma how_events_none (cs : list Cand) (hs : list (option Meas)) :
  length hs = length cs ->
  Forall (fun h => h = None) hs ->
  how_events cs hs = not_violated_events cs.
Proof.
  revert hs. induction cs as [|c cs IH]; intros [|h hs] Hl Hn; simpl in *;
    try discriminate; try reflexivity.
  inversion Hn; subst. unfold how_events, not_violated_events in *. simpl.
  f_equal. apply IH; auto.
Qed.

Lemma count_how_events (cs : list Cand) (hs : list (option Meas)) :
  length hs = length cs ->
  count is_how (how_events cs hs) = length cs /\
  count is_add (how_events cs hs) = 0.
Proof.
  revert hs. induction cs as [|c cs IH]; intros [|h hs] Hl; simpl in *;
    try discriminate; auto.
  destruct (IH hs) as [IH1 IH2]; [lia|].
  unfold count, how_events in *. simpl. rewrite IH1, IH2. auto.
Qed.

Lemma max_scan_run (cmp : option Meas -> option Meas -> bool)
    (its : list (iterator Cand)) (most : option (option Meas * iterator Cand))
    (s : St) :
  max_scan (t_how e) cmp its most s =
  (select_max cmp (combine (fst (eval_hows e (map deref its) (lp s))) its) most,
   mkState (snd (eval_hows e (map deref its) (lp s))) (m_g s)
           (trace s ++ how_events (map deref its)
                                  (fst (eval_hows e (map deref its) (lp s))))).
Proof.
  revert most s. induction its as [|it its IH]; intros most s; simpl.
  - unfold ret, how_events. simpl. rewrite app_nil_r. now destruct s.
  - unfold bind. rewrite t_how_run, IH. cbn [lp m_g trace].
    destruct (how_violated e (deref it) (lp s)) as [h w1]. cbn [fst snd].
    destruct (eval_hows e (map deref its) w1) as [hs w2]. cbn [fst snd].
    unfold how_events. simpl. now rewrite <- app_assoc.
Qed.

Lemma max_oracle_run (cmp : option Meas -> option Meas -> bool) (s : St) :
  let cands := fst (get_candidates e (lp s)) in
  let run := eval_hows e cands (snd (get_candidates e (lp s))) in
  max_violated_separation_oracle e cmp s =
  match select_max cmp (combine (fst run) (counting_range cands)) None with
  | None =>
      (false, mkState (snd run) (m_g s)
                      (trace s ++ EvGet cands :: how_events cands (fst run)))
  | Some m =>
      (true, mkState (add_violated e (deref (snd m)) (snd run)) (m_g s)
                     (trace s ++ EvGet cands :: how_events cands (fst run)
                                     ++ [EvAdd (deref (snd m))]))
  end.
Proof.
  intros cands run.
  unfold max_violated_separation_oracle, add_max_violated, bind.
  rewrite t_get_run, max_scan_run. cbn [lp m_g trace].
  rewrite map_deref_counting_range. fold cands. fold run.
  destruct (select_max cmp _ None) as [m|].
  - rewrite t_add_run. unfold ret. cbn [lp m_g trace].
    now rewrite <- !app_assoc.
  - unfold ret. now rewrite <- app_assoc.
Qed.
Lemma first_scan_cases (its : list (iterator Cand)) (s : St) :
  (exists pre it post m w1 w2,
      its = pre ++ it :: post /\
      Forall (fun h => h = None) (fst (eval_hows e (map deref pre) (lp s))) /\
      snd (eval_hows e (map deref pre) (lp s)) = w1 /\
      how_violated e (deref it) w1 = (Some m, w2) /\
      first_scan (t_how e) (t_add e) its s =
      (true, mkState (add_violated e (deref it) w2) (m_g s)
                     (trace s ++ not_violated_events (map deref pre)
                              ++ [EvHow (deref it) (Some m); EvAdd (deref it)])))
  \/
  (Forall (fun h => h = None) (fst (eval_hows e (map deref its) (lp s))) /\
   first_scan (t_how e) (t_add e) its s =
   (false, mkState (snd (eval_hows e (map deref its) (lp s))) (m_g s)
                   (trace s ++ not_violated_events (map deref its)))).
Proof.
  revert s. induction its as [|it its IH]; intros s.
  - right. split; [constructor|]. simpl. unfold ret, not_violated_events. simpl.
    rewrite app_nil_r. now destruct s.
  - simpl. unfold bind. rewrite t_how_run.
    destruct (how_violated e (deref it) (lp s)) as [[m|] w1] eqn:Eh; cbn [fst snd truthy].
    + left. exists [], it, its, m, (lp s), w1. simpl.
      split; [reflexivity|]. split; [constructor|]. split; [reflexivity|].
      split; [exact Eh|]. unfold ret. now rewrite <- app_assoc.
    + set (s1 := mkState w1 (m_g s) (trace s ++ [EvHow (deref it) None])).
      destruct (IH s1) as [(pre & it' & post & m & w2 & w3 & Hits & Hn & Hw & Hh & Hrun)
                          | [Hn Hrun]].
      * left. exists (it :: pre), it', post, m, w2, w3.
        split; [now rewrite Hits|]. simpl. rewrite Eh.
        unfold s1 in Hn, Hw; cbn [lp] in Hn, Hw.
        destruct (eval_hows e (map deref pre) w1) as [hs w4]. cbn [fst snd] in *.
        split; [now constructor|]. split; [exact Hw|]. split; [exact Hh|].
        rewrite Hrun. unfold s1. cbn [lp m_g trace].
        now rewrite <- app_assoc.
      * right. unfold s1 in Hn; cbn [lp] in Hn.
        rewrite Hrun. unfold s1. cbn [lp m_g trace].
        destruct (eval_hows e (map deref its) w1) as [hs w4]. cbn [fst snd] in *.
        split; [now constructor|]. now rewrite <- app_assoc.
Qed.

Lemma first_oracle_cases (reorder : list Cand -> M St (list Cand)) (s : St) :
  let cands := fst (get_candidates e (lp s)) in
  let reordered := fst (reorder cands (snd (t_get e s))) in
  let s2 := snd (reorder cands (snd (t_get e s))) in
  (exists pre c post m w1 w2,
      reordered = pre ++ c :: post /\
      Forall (fun h => h = None) (fst (eval_hows e pre (lp s2))) /\
      snd (eval_hows e pre (lp s2)) = w1 /\
      how_violated e c w1 = (Some m, w2) /\
      first_violated_separation_oracle e reorder s =
      (true, mkState (add_violated e c w2) (m_g s2)
                     (trace s2 ++ not_violated_events pre
                               ++ [EvHow c (Some m); EvAdd c])))
  \/
  (Forall (fun h => h = None) (fst (eval_hows e reordered (lp s2))) /\
   first_violated_separation_oracle e reorder s =
   (false, mkState (snd (eval_hows e reordered (lp s2))) (m_g s2)
                   (trace s2 ++ not_violated_events reordered))).
Proof.
  intros cands reordered s2.
  unfold first_violated_separation_oracle, add_first_violated, bind.
  rewrite t_get_run. cbn [fst snd]. fold cands.
  assert (Hs1 : snd (t_get e s) =
                mkState (snd (get_candidates e (lp s))) (m_g s)
                        (trace s ++ [EvGet cands]))
    by (rewrite t_get_run; reflexivity).
  rewrite <- Hs1.
  destruct (reorder cands (snd (t_get e s))) as [r s2'] eqn:Er.
  cbn [fst snd] in reordered, s2. subst reordered s2.
  rename r into reordered, s2' into s2.
  destruct (first_scan_cases (counting_range reordered) s2)
    as [(pre & it & post & m & w1 & w2 & Hits & Hn & Hw & Hh & Hrun) | [Hn Hrun]].
  - left. exists (map deref pre), (deref it), (map deref post), m, w1, w2.
    split.
    { rewrite <- (map_deref_counting_range reordered), Hits, map_app. reflexivity. }
    split; [exact Hn|]. split; [exact Hw|]. split; [exact Hh|]. exact Hrun.
  - right. rewrite map_deref_counting_range in Hn, Hrun. split; [exact Hn | exact Hrun].
Qed.
Lemma random_rotate_run (rng : list Cand) (s : St) :
  make_random_rotate e rng s =
  (rotate rng (fst (uniform_int_distribution e 0 (length rng) (m_g s))),
   mkState (lp s) (snd (uniform_int_distribution e 0 (length rng) (m_g s)))
           (trace s ++ [EvDraw 0 (length rng)
                          (fst (uniform_int_distribution e 0 (length rng) (m_g s)))])).
Proof.
  unfold make_random_rotate, random_rotate, bind. rewrite t_draw_run. reflexivity.
Qed.

Lemma incl_rotate (rng : list Cand) (n : nat) : incl rng (rotate rng n).
Proof.
  intros x Hx. unfold rotate. rewrite <- (firstn_skipn n rng) in Hx.
  apply in_app_or in Hx. apply in_or_app. tauto.
Qed.

Lemma rotate_incl (rng : list Cand) (n : nat) : incl (rotate rng n) rng.
Proof.
  intros x Hx. unfold rotate in Hx. rewrite <- (firstn_skipn n rng).
  apply in_app_or in Hx. apply in_or_app. tauto.
Qed.

Lemma identity_reordering :
  reordering (identity_functor (S := St) (Cand := Cand)).
Proof.
  intros cs s. unfold identity_functor, ret. cbn [fst snd].
  split; [apply incl_refl|]. split; [apply incl_refl|]. split; [reflexivity|].
  exists []. split; [now rewrite app_nil_r | intros ev []].
Qed.

Lemma random_rotate_reordering : reordering (make_random_rotate e).
Proof.
  intros cs s. rewrite random_rotate_run. cbn [fst snd lp trace].
  split; [apply incl_rotate|]. split; [apply rotate_incl|]. split; [reflexivity|].
  eexists. split; [reflexivity|].
  intros ev [<-|[]]. repeat split.
Qed.

Lemma select_max_some (cmp : option Meas -> option Meas -> bool)
    (hcs : list (option Meas * iterator Cand)) (m : option Meas * iterator Cand) :
  select_max cmp hcs (Some m) <> None.
Proof.
  revert m. induction hcs as [|[h c] hcs IH]; intros m; simpl; [discriminate|].
  unfold max_step. cbn [fst snd truthy negb orb].
  destruct (negb (truthy h)); [apply IH|].
  destruct (cmp (fst m) h); apply IH.
Qed.

Lemma select_max_none (cmp : option Meas -> option Meas -> bool)
    (hcs : list (option Meas * iterator Cand)) :
  select_max cmp hcs None = None ->
  Forall (fun hc => fst hc = None) hcs.
Proof.
  induction hcs as [|[h c] hcs IH]; simpl; intros H; [constructor|].
  unfold max_step in H. destruct h as [m|]; cbn [truthy negb orb fst snd] in H.
  - now apply select_max_some in H.
  - constructor; [reflexivity | now apply IH].
Qed.

Lemma Forall_fst_combine (hs : list (option Meas)) (its : list (iterator Cand)) :
  length hs = length its ->
  Forall (fun hc => fst hc = None) (combine hs its) ->
  Forall (fun h => h = None) hs.
Proof.
  revert its. induction hs as [|h hs IH]; intros [|it its] Hl H; simpl in *;
    try discriminate; constructor.
  - now inversion H.
  - inversion H; subst. eapply IH; eauto.
Qed.

Lemma in_not_violated_events (cs : list Cand) (c : Cand) (h : option Meas) :
  In (EvHow c h) (@not_violated_events Cand Meas cs) -> h = None /\ In c cs.
Proof.
  unfold not_violated_events. rewrite in_map_iff.
  intros (c' & Heq & Hin). inversion Heq; subst. auto.
Qed.

Lemma count_not_violated_events (cs : list Cand) :
  count is_how (@not_violated_events Cand Meas cs) = length cs /\
  count is_add (@not_violated_events Cand Meas cs) = 0.
Proof.
  unfold count, not_violated_events.
  induction cs as [|c cs [IH1 IH2]]; simpl; auto.
Qed.

(** C10: on a candidate sequence of [n] elements the max-violated oracle
    calls [how_violated] once per candidate, in order, [n] calls in all,
    whatever the measures; what follows the last of these calls is at most
    the one [add_violated], so the winner is not measured again. *)
Theorem max_violated_measures_each_once
    (cmp : option Meas -> option Meas -> bool) (s : St) :
  let cands := fst (get_candidates e (lp s)) in
  let hs := fst (eval_hows e cands (snd (get_candidates e (lp s)))) in
  let s' := snd (max_violated_separation_oracle e cmp s) in
  length hs = length cands /\
  (exists tail,
      trace s' = trace s ++ EvGet cands :: how_events cands hs ++ tail /\
      (tail = [] \/ exists c, tail = [EvAdd c])) /\
  count is_how (trace s') = count is_how (trace s) + length cands.
Proof.
  intros cands hs s'.
  assert (Hl : length hs = length cands) by apply eval_hows_length.
  assert (Ht : exists tail,
      trace s' = trace s ++ EvGet cands :: how_events cands hs ++ tail /\
      (tail = [] \/ exists c, tail = [EvAdd c])).
  { unfold s'. rewrite max_oracle_run. fold cands. fold hs.
    destruct (select_max cmp _ None) as [m|]; cbn [snd trace].
    - exists [EvAdd (deref (snd m))]. split; [reflexivity|]. right. now eexists.
    - exists []. split; [now rewrite app_nil_r|]. now left. }
  split; [exact Hl|]. split; [exact Ht|].
  destruct Ht as (tail & -> & Htail).
  change (EvGet cands :: how_events cands hs ++ tail)
    with ([EvGet cands] ++ how_events cands hs ++ tail).
  rewrite !count_app. destruct (count_how_events cands hs Hl) as [-> _].
  destruct Htail as [-> | [c ->]]; cbn; lia.
Qed.
Lemma count_zero (p : event Cand Meas -> bool) (l : list (event Cand Meas)) :
  (forall ev, In ev l -> p ev = false) -> count p l = 0.
Proof.
  unfold count. induction l as [|ev l IH]; intros H; simpl; [reflexivity|].
  rewrite (H ev) by now left. apply IH. intros ev' Hin. apply H. now right.
Qed.

Lemma max_oracle_trace (cmp : option Meas -> option Meas -> bool) (s : St) :
  let r := max_violated_separation_oracle e cmp s in
  let cands := fst (get_candidates e (lp s)) in
  (fst r = false /\
   trace (snd r) = trace s ++ EvGet cands :: not_violated_events cands)
  \/
  (fst r = true /\ exists hs c,
      length hs = length cands /\
      trace (snd r) = trace s ++ EvGet cands :: how_events cands hs ++ [EvAdd c]).
Proof.
  intros r cands. unfold r. rewrite max_oracle_run. fold cands.
  pose proof (eval_hows_length cands (snd (get_candidates e (lp s)))) as Hl.
  destruct (select_max cmp _ None) as [m|] eqn:Es; cbn [fst snd trace].
  - right. split; [reflexivity|]. eauto.
  - left. split; [reflexivity|].
    apply select_max_none in Es. apply Forall_fst_combine in Es.
    + rewrite how_events_none; [reflexivity | exact Hl | exact Es].
    + now rewrite length_counting_range.
Qed.

Lemma first_oracle_trace (reorder : list Cand -> M St (list Cand)) (s : St) :
  reordering reorder ->
  let r := first_violated_separation_oracle e reorder s in
  let cands := fst (get_candidates e (lp s)) in
  exists revs pre tail,
    trace (snd r) = trace s ++ EvGet cands :: revs ++ not_violated_events pre ++ tail /\
    (forall ev, In ev revs ->
       is_how ev = false /\ is_add ev = false /\ is_loop_event ev = false) /\
    ((fst r = false /\ tail = [] /\ incl cands pre) \/
     (fst r = true /\ exists c m, tail = [EvHow c (Some m); EvAdd c])).
Proof.
  intros Hre r cands. subst r cands.
  destruct (Hre (fst (get_candidates e (lp s))) (snd (t_get e s)))
    as (Hincl & _ & _ & revs & Htr & Hrevs).
  assert (Hget : trace (snd (t_get e s))
                 = trace s ++ [EvGet (fst (get_candidates e (lp s)))])
    by (rewrite t_get_run; reflexivity).
  rewrite Hget in Htr.
  destruct (first_oracle_cases reorder s)
    as [(pre & c & post & m & w1 & w2 & _ & _ & _ & _ & Hrun) | [_ Hrun]];
    rewrite Hrun; cbn [fst snd trace]; rewrite Htr.
  - exists revs, pre, [EvHow c (Some m); EvAdd c].
    split; [now rewrite <- !app_assoc|]. split; [exact Hrevs|].
    right. split; [reflexivity|]. eauto.
  - exists revs, (fst (reorder (fst (get_candidates e (lp s))) (snd (t_get e s)))), [].
    split; [now rewrite app_nil_r, <- !app_assoc|]. split; [exact Hrevs|].
    left. auto.
Qed.

(** C2: when the max-violated oracle or the first-violated oracle answers
    false, every candidate that [get_candidates] produced in that call was
    measured and found not violated, and no measurement of that call said
    violated. *)
Theorem oracles_exact :
  (forall (cmp : option Meas -> option Meas -> bool) (s : St),
      fst (max_violated_separation_oracle e cmp s) = false ->
      exists evs,
        trace (snd (max_violated_separation_oracle e cmp s)) = trace s ++ evs /\
        (forall c, In c (fst (get_candidates e (lp s))) -> In (EvHow c None) evs) /\
        (forall c h, In (EvHow c h) evs -> h = None)) /\
  (forall (reorder : list Cand -> M St (list Cand)) (s : St),
      reordering reorder ->
      fst (first_violated_separation_oracle e reorder s) = false ->
      exists evs,
        trace (snd (first_violated_separation_oracle e reorder s)) = trace s ++ evs /\
        (forall c, In c (fst (get_candidates e (lp s))) -> In (EvHow c None) evs) /\
        (forall c h, In (EvHow c h) evs -> h = None)).
Proof.
  split.
  - intros cmp s Hf.
    destruct (max_oracle_trace cmp s) as [[_ Htr] | [Ht _]]; [|congruence].
    eexists. split; [exact Htr|]. split.
    + intros c Hc. right. unfold not_violated_events.
      apply in_map_iff. now exists c.
    + intros c h [Hev | Hev]; [discriminate|].
      now apply in_not_violated_events in Hev.
  - intros reorder s Hre Hf.
    destruct (first_oracle_trace s Hre) as (revs & pre & tail & Htr & Hrevs & Hcase).
    destruct Hcase as [(_ & -> & Hincl) | [Ht _]]; [|congruence].
    eexists. split; [exact Htr|]. split.
    + intros c Hc. right. apply in_or_app. right. apply in_or_app. left.
      unfold not_violated_events. apply in_map_iff. exists c. split; auto.
    + intros c h [Hev | Hev]; [discriminate|].
      rewrite app_nil_r in Hev. apply in_app_or in Hev. destruct Hev as [Hev | Hev].
      * apply Hrevs in Hev. simpl in Hev. destruct Hev; discriminate.
      * now apply in_not_violated_events in Hev.
Qed.

(** C6: one call of any of the three oracles calls [add_violated] at most
    once: exactly once when it answers true, not at all when it answers
    false. *)
Theorem oracles_add_at_most_once :
  (forall (cmp : option Meas -> option Meas -> bool) (s : St),
      exists evs,
        trace (snd (max_violated_separation_oracle e cmp s)) = trace s ++ evs /\
        count is_add evs =
        if fst (max_violated_separation_oracle e cmp s) then 1 else 0) /\
  (forall (reorder : list Cand -> M St (list Cand)) (s : St),
      reordering reorder ->
      exists evs,
        trace (snd (first_violated_separation_oracle e reorder s)) = trace s ++ evs /\
        count is_add evs =
        if fst (first_violated_separation_oracle e reorder s) then 1 else 0) /\
  (forall s : St,
      exists evs,
        trace (snd (random_violated_separation_oracle e s)) = trace s ++ evs /\
        count is_add evs =
        if fst (random_violated_separation_oracle e s) then 1 else 0).
Proof.
  assert (Hfirst : forall (reorder : list Cand -> M St (list Cand)) (s : St),
      reordering reorder ->
      exists evs,
        trace (snd (first_violated_separation_oracle e reorder s)) = trace s ++ evs /\
        count is_add evs =
        if fst (first_violated_separation_oracle e reorder s) then 1 else 0).
  { intros reorder s Hre.
    destruct (first_oracle_trace s Hre) as (revs & pre & tail & Htr & Hrevs & Hcase).
    eexists. split; [exact Htr|].
    change (EvGet ?c :: ?l) with ([EvGet c] ++ l).
    rewrite !count_app.
    rewrite (count_zero is_add revs) by (intros ev Hev; now apply Hrevs in Hev).
    destruct (count_not_violated_events pre) as [_ ->].
    destruct Hcase as [(-> & -> & _) | (-> & c & m & ->)]; reflexivity. }
  split; [|split].
  - intros cmp s.
    destruct (max_oracle_trace cmp s) as [[-> Htr] | (-> & hs & c & Hl & Htr)];
      (eexists; split; [exact Htr|]).
    + change (EvGet ?c :: ?l) with ([EvGet c] ++ l). rewrite count_app.
      now destruct (count_not_violated_events (fst (get_candidates e (lp s)))) as [_ ->].
    + change (EvGet ?c :: ?l) with ([EvGet c] ++ l). rewrite !count_app.
      now destruct (count_how_events _ hs Hl) as [_ ->].
  - exact Hfirst.
  - intros s. apply Hfirst. apply random_rotate_reordering.
Qed.
(** C5: with no candidates every oracle answers false and calls neither
    [how_violated] nor [add_violated].  The random rotation then draws from
    the interval from 0 to 0; a draw within its interval is the offset 0, and
    rotating the empty sequence gives the empty sequence. *)
Theorem empty_candidates (cmp : option Meas -> option Meas -> bool) (s : St) :
  fst (get_candidates e (lp s)) = [] ->
  let w1 := snd (get_candidates e (lp s)) in
  let off := fst (uniform_int_distribution e 0 0 (m_g s)) in
  max_violated_separation_oracle e cmp s =
    (false, mkState w1 (m_g s) (trace s ++ [EvGet []])) /\
  first_violated_separation_oracle e identity_functor s =
    (false, mkState w1 (m_g s) (trace s ++ [EvGet []])) /\
  random_violated_separation_oracle e s =
    (false, mkState w1 (snd (uniform_int_distribution e 0 0 (m_g s)))
                    (trace s ++ [EvGet []; EvDraw 0 0 off])) /\
  rotate (@nil Cand) off = [] /\
  (draws_in_range e -> off = 0).
Proof.
  intros Hempty w1 off. split; [|split; [|split; [|split]]].
  - rewrite max_oracle_run, Hempty. reflexivity.
  - unfold first_violated_separation_oracle, add_first_violated, bind.
    rewrite t_get_run, Hempty. unfold identity_functor, ret. reflexivity.
  - unfold random_violated_separation_oracle, first_violated_separation_oracle,
      add_first_violated, bind.
    rewrite t_get_run, Hempty. cbn [fst snd]. rewrite random_rotate_run.
    cbn [length lp m_g trace]. fold off.
    replace (rotate [] off) with (@nil Cand) by (unfold rotate; now destruct off).
    unfold ret. simpl. now rewrite <- app_assoc.
  - unfold rotate. now destruct off.
  - intros Hr. specialize (Hr 0 0 (m_g s) (le_n 0)). fold off in Hr. lia.
Qed.

Lemma first_scan_miss (its : list (iterator Cand)) (s : St) :
  Forall (fun h => h = None) (fst (eval_hows e (map deref its) (lp s))) ->
  first_scan (t_how e) (t_add e) its s =
  (false, mkState (snd (eval_hows e (map deref its) (lp s))) (m_g s)
                  (trace s ++ not_violated_events (map deref its))).
Proof.
  revert s. induction its as [|it its IH]; intros s Hn.
  - simpl. unfold ret, not_violated_events. simpl. rewrite app_nil_r. now destruct s.
  - simpl in *. unfold bind. rewrite t_how_run.
    destruct (how_violated e (deref it) (lp s)) as [h w1]. cbn [fst snd].
    specialize (IH (mkState w1 (m_g s) (trace s ++ [EvHow (deref it) h]))).
    cbn [lp m_g trace] in IH.
    destruct (eval_hows e (map deref its) w1) as [hs w2]. cbn [fst snd] in *.
    inversion Hn; subst. cbn [truthy]. rewrite IH by assumption.
    unfold not_violated_events. simpl. now rewrite <- app_assoc.
Qed.

Lemma first_scan_hit (pre : list (iterator Cand)) (it : iterator Cand)
    (post : list (iterator Cand)) (s : St) (m : Meas) (w2 : W) :
  Forall (fun h => h = None) (fst (eval_hows e (map deref pre) (lp s))) ->
  how_violated e (deref it) (snd (eval_hows e (map deref pre) (lp s))) = (Some m, w2) ->
  first_scan (t_how e) (t_add e) (pre ++ it :: post) s =
  (true, mkState (add_violated e (deref it) w2) (m_g s)
                 (trace s ++ not_violated_events (map deref pre)
                          ++ [EvHow (deref it) (Some m); EvAdd (deref it)])).
Proof.
  revert s. induction pre as [|p pre IH]; intros s Hn Hh.
  - simpl in *. unfold bind. rewrite t_how_run, Hh. cbn [fst snd truthy].
    rewrite t_add_run. unfold ret. cbn [lp m_g trace]. now rewrite <- app_assoc.
  - simpl in *. unfold bind. rewrite t_how_run.
    destruct (how_violated e (deref p) (lp s)) as [h w1]. cbn [fst snd].
    specialize (IH (mkState w1 (m_g s) (trace s ++ [EvHow (deref p) h]))).
    cbn [lp m_g trace] in IH.
    destruct (eval_hows e (map deref pre) w1) as [hs w3]. cbn [fst snd] in *.
    inversion Hn; subst. cbn [truthy]. rewrite IH by assumption.
    unfold not_violated_events. simpl. now rewrite <- app_assoc.
Qed.

Lemma combine_seq_app (pre : list Cand) (c : Cand) (post : list Cand) (a : nat) :
  combine (seq a (length (pre ++ c :: post))) (pre ++ c :: post) =
  combine (seq a (length pre)) pre
    ++ (a + length pre, c) :: combine (seq (Datatypes.S (a + length pre)) (length post)) post.
Proof.
  revert a. induction pre as [|p pre IH]; intros a; simpl.
  - now rewrite Nat.add_0_r.
  - rewrite IH. now rewrite Nat.add_succ_r.
Qed.

Lemma counting_range_app (pre : list Cand) (c : Cand) (post : list Cand) :
  exists ipre ipost,
    counting_range (pre ++ c :: post) = ipre ++ (length pre, c) :: ipost /\
    map deref ipre = pre /\ map deref ipost = post.
Proof.
  unfold counting_range. rewrite combine_seq_app. simpl.
  eexists _, _. split; [reflexivity|].
  split; apply map_snd_combine_seq.
Qed.

Lemma first_oracle_hit (reorder : list Cand -> M St (list Cand)) (s : St)
    (pre : list Cand) (c : Cand) (post : list Cand) (m : Meas) (w2 : W) :
  let cands := fst (get_candidates e (lp s)) in
  let reordered := fst (reorder cands (snd (t_get e s))) in
  let s2 := snd (reorder cands (snd (t_get e s))) in
  reordered = pre ++ c :: post ->
  Forall (fun h => h = None) (fst (eval_hows e pre (lp s2))) ->
  how_violated e c (snd (eval_hows e pre (lp s2))) = (Some m, w2) ->
  first_violated_separation_oracle e reorder s =
  (true, mkState (add_violated e c w2) (m_g s2)
                 (trace s2 ++ not_violated_events pre ++ [EvHow c (Some m); EvAdd c])).
Proof.
  intros cands reordered s2 Hre Hn Hh.
  unfold first_violated_separation_oracle, add_first_violated, bind.
  destruct (t_get e s) as [cands' s1] eqn:Eg.
  assert (cands' = cands) by (rewrite t_get_run in Eg; now inversion Eg).
  subst cands'. cbn [snd] in reordered, s2.
  destruct (reorder cands s1) as [r s2'] eqn:Er.
  cbn [fst snd] in reordered, s2. subst reordered s2. subst r.
  destruct (counting_range_app pre c post) as (ipre & ipost & -> & Hpre & Hpost).
  rewrite <- Hpre in Hn, Hh |- *.
  apply (first_scan_hit ipre (length (map deref ipre), c) ipost s2' Hn Hh).
Qed.

Lemma first_oracle_miss (reorder : list Cand -> M St (list Cand)) (s : St) :
  let cands := fst (get_candidates e (lp s)) in
  let reordered := fst (reorder cands (snd (t_get e s))) in
  let s2 := snd (reorder cands (snd (t_get e s))) in
  Forall (fun h => h = None) (fst (eval_hows e reordered (lp s2))) ->
  first_violated_separation_oracle e reorder s =
  (false, mkState (snd (eval_hows e reordered (lp s2))) (m_g s2)
                  (trace s2 ++ not_violated_events reordered)).
Proof.
  intros cands reordered s2 Hn.
  unfold first_violated_separation_oracle, add_first_violated, bind.
  destruct (t_get e s) as [cands' s1] eqn:Eg.
  assert (cands' = cands) by (rewrite t_get_run in Eg; now inversion Eg).
  subst cands'. cbn [snd] in reordered, s2.
  destruct (reorder cands s1) as [r s2'] eqn:Er.
  cbn [fst snd] in reordered, s2. subst reordered s2.
  rewrite first_scan_miss by (now rewrite map_deref_counting_range).
  now rewrite !map_deref_counting_range.
Qed.
Lemma max_step_replace (cmp : option Meas -> option Meas -> bool)
    (b how : option Meas) (it cand : iterator Cand) :
  max_step cmp (Some (b, it)) how cand =
  if truthy how && cmp b how then Some (how, cand) else Some (b, it).
Proof.
  unfold max_step. cbn [truthy negb orb fst].
  destruct (truthy how); cbn [negb andb]; reflexivity.
Qed.

Lemma select_max_from_some (cmp : option Meas -> option Meas -> bool)
    (hcs l1 : list (option Meas * iterator Cand)) (b : option Meas)
    (it : iterator Cand) (l2 : list (option Meas * iterator Cand)) :
  strict_weak_order cmp ->
  first_greatest cmp (map fst l1) b (map fst l2) ->
  exists l1' m l2',
    l1 ++ (b, it) :: l2 ++ hcs = l1' ++ m :: l2' /\
    select_max cmp hcs (Some (b, it)) = Some m /\
    first_greatest cmp (map fst l1') (fst m) (map fst l2').
Proof.
  intros (Hirr & Htrans & Hneg).
  revert l1 b it l2. induction hcs as [|[h c] hcs IH]; intros l1 b it l2 Hfg.
  - exists l1, (b, it), l2. rewrite app_nil_r. auto.
  - simpl select_max. rewrite max_step_replace.
    destruct Hfg as (Hb & H1 & H2).
    destruct (truthy h && cmp b h) eqn:Erep.
    + apply andb_prop in Erep. destruct Erep as [Hh Hc].
      destruct (IH (l1 ++ (b, it) :: l2) h c []) as (l1' & m & l2' & Heq & Hsel & Hfg').
      { split; [exact Hh|]. split; [|constructor].
        rewrite map_app. cbn [map fst]. apply Forall_app. split; [|constructor].
        - eapply Forall_impl; [|exact H1]. cbv beta. intros a Ha Hta.
          destruct (Ha Hta) as [Hab Hba]. split; [eapply Htrans; eauto|].
          destruct (cmp h a) eqn:Eha; [|reflexivity].
          rewrite (Htrans _ _ _ Hc Eha) in Hba. discriminate.
        - intros _. split; [exact Hc|].
          destruct (cmp h b) eqn:Ehb; [|reflexivity].
          rewrite <- (Hirr b). symmetry. eapply Htrans; eauto.
        - eapply Forall_impl; [|exact H2]. cbv beta. intros a Ha Hta.
          specialize (Ha Hta).
          destruct (Hneg b a h Hc) as [Hba | Hah]; [congruence|].
          split; [exact Hah|].
          destruct (cmp h a) eqn:Eha; [|reflexivity].
          rewrite <- (Hirr a). symmetry. eapply Htrans; eauto. }
      exists l1', m, l2'. split; [|auto].
      rewrite <- Heq. cbn [app]. now rewrite <- app_assoc.
    + destruct (IH l1 b it (l2 ++ [(h, c)])) as (l1' & m & l2' & Heq & Hsel & Hfg').
      { split; [exact Hb|]. split; [exact H1|].
        rewrite map_app. apply Forall_app. split; [exact H2|].
        constructor; [|constructor]. cbn [fst]. intros Hh.
        rewrite Hh in Erep. exact Erep. }
      exists l1', m, l2'. split; [|auto].
      rewrite <- Heq. now rewrite <- app_assoc.
Qed.

Lemma select_max_from_none (cmp : option Meas -> option Meas -> bool)
    (hcs : list (option Meas * iterator Cand)) (m : option Meas * iterator Cand) :
  strict_weak_order cmp ->
  select_max cmp hcs None = Some m ->
  exists l1 l2,
    hcs = l1 ++ m :: l2 /\
    first_greatest cmp (map fst l1) (fst m) (map fst l2).
Proof.
  intros Hswo. induction hcs as [|[h c] hcs IH]; intros Hsel; [discriminate|].
  simpl in Hsel. unfold max_step in Hsel.
  destruct h as [x|]; cbn [truthy negb orb fst snd] in Hsel.
  - destruct (@select_max_from_some cmp hcs [] (Some x) c [] Hswo)
      as (l1 & m' & l2 & Heq & Hsel' & Hfg).
    { split; [reflexivity|]. split; constructor. }
    rewrite Hsel in Hsel'. inversion Hsel'; subst m'.
    exists l1, l2. split; [exact Heq | exact Hfg].
  - destruct (IH Hsel) as (l1 & l2 & -> & Hb & H1 & H2).
    exists ((None, c) :: l1), l2. split; [reflexivity|].
    split; [exact Hb|]. split; [|exact H2].
    cbn [map fst]. constructor; [discriminate | exact H1].
Qed.

Lemma combine_split_at (hs : list (option Meas)) (its : list (iterator Cand))
    (l1 : list (option Meas * iterator Cand)) (m : option Meas * iterator Cand)
    (l2 : list (option Meas * iterator Cand)) :
  length hs = length its ->
  combine hs its = l1 ++ m :: l2 ->
  hs = map fst l1 ++ fst m :: map fst l2 /\
  its = map snd l1 ++ snd m :: map snd l2.
Proof.
  intros Hl Heq.
  assert (H1 : map fst (combine hs its) = hs).
  { clear Heq. revert its Hl. induction hs as [|h hs IH]; intros [|it its] Hl;
      simpl in *; try discriminate; auto. f_equal. apply IH. lia. }
  assert (H2 : map snd (combine hs its) = its).
  { clear Heq H1. revert its Hl. induction hs as [|h hs IH]; intros [|it its] Hl;
      simpl in *; try discriminate; auto. f_equal. apply IH. lia. }
  rewrite Heq, map_app in H1, H2. cbn [map] in H1, H2. auto.
Qed.

Lemma max_oracle_greatest (cmp : option Meas -> option Meas -> bool) (s : St) :
  strict_weak_order cmp ->
  fst (max_violated_separation_oracle e cmp s) = true ->
  let cands := fst (get_candidates e (lp s)) in
  let run := eval_hows e cands (snd (get_candidates e (lp s))) in
  exists cs1 c cs2 hs1 b hs2,
    cands = cs1 ++ c :: cs2 /\
    fst run = hs1 ++ b :: hs2 /\
    length hs1 = length cs1 /\
    first_greatest cmp hs1 b hs2 /\
    max_violated_separation_oracle e cmp s =
    (true, mkState (add_violated e c (snd run)) (m_g s)
                   (trace s ++ EvGet cands :: how_events cands (fst run) ++ [EvAdd c])).
Proof.
  intros Hswo Ht cands run. revert Ht. rewrite max_oracle_run. fold cands. fold run.
  destruct (select_max cmp _ None) as [m|] eqn:Es; [intros _|discriminate].
  destruct (select_max_from_none _ Hswo Es) as (l1 & l2 & Heq & Hfg).
  apply combine_split_at in Heq.
  2:{ rewrite length_counting_range. apply eval_hows_length. }
  destruct Heq as [Hhs Hits].
  exists (map deref (map snd l1)), (deref (snd m)), (map deref (map snd l2)),
    (map fst l1), (fst m), (map fst l2).
  split.
  { rewrite <- (map_deref_counting_range cands), Hits, map_app. reflexivity. }
  split; [exact Hhs|]. split; [now rewrite !length_map|].
  split; [exact Hfg | reflexivity].
Qed.
End Oracles.


(** ** The oracles on concrete candidates *)

Lemma less_strict_weak : strict_weak_order (less Nat.ltb).
Proof.
  split; [|split].
  - intros [a|]; simpl; [apply Nat.ltb_irrefl | reflexivity].
  - intros [a|] [b|] [c|]; simpl; try congruence.
    rewrite !Nat.ltb_lt. lia.
  - intros [a|] [b|] [c|]; simpl; try tauto; try (intros; discriminate).
    rewrite !Nat.ltb_lt. lia.
Qed.

Lemma minstd_uniform_in_range (pool : list nat) (meas : nat -> option nat) :
  draws_in_range (pool_env pool meas minstd_uniform).
Proof.
  intros lo hi g Hle. cbn [uniform_int_distribution pool_env].
  unfold minstd_uniform. cbn [fst].
  assert (H : (minstd_next g mod N.of_nat (hi - lo + 1) < N.of_nat (hi - lo + 1))%N)
    by (apply N.mod_lt; lia).
  revert H. generalize (minstd_next g mod N.of_nat (hi - lo + 1))%N.
  intros x Hx. lia.
Qed.

(** C3: the max-violated oracle replaces the current best only when the
    comparator puts it strictly below the new violated candidate; under a
    strict weak ordering it therefore commits the first of the candidates
    with the greatest measure.  For the measures 3, 7, 2, 7 under less-than
    it commits the candidate at index 1 and answers true. *)
Theorem max_violated_commits_first_greatest :
  (forall (Cand Meas : Type) (cmp : option Meas -> option Meas -> bool)
          (b how : option Meas) (it cand : iterator Cand),
      max_step cmp (Some (b, it)) how cand =
      if truthy how && cmp b how then Some (how, cand) else Some (b, it)) /\
  (forall (W G Cand Meas : Type) (e : env W G Cand Meas)
          (cmp : option Meas -> option Meas -> bool) (s : state W G Cand Meas),
      strict_weak_order cmp ->
      fst (max_violated_separation_oracle e cmp s) = true ->
      let cands := fst (get_candidates e (lp s)) in
      let run := eval_hows e cands (snd (get_candidates e (lp s))) in
      exists cs1 c cs2 hs1 b hs2,
        cands = cs1 ++ c :: cs2 /\
        fst run = hs1 ++ b :: hs2 /\
        length hs1 = length cs1 /\
        first_greatest cmp hs1 b hs2 /\
        max_violated_separation_oracle e cmp s =
        (true, mkState (add_violated e c (snd run)) (m_g s)
                       (trace s ++ EvGet cands :: how_events cands (fst run)
                                ++ [EvAdd c]))) /\
  max_violated_separation_oracle measures_env (less Nat.ltb) (initial [] 1%N) =
  (true, mkState [1] 1%N
                 [EvGet [0; 1; 2; 3]; EvHow 0 (Some 3); EvHow 1 (Some 7);
                  EvHow 2 (Some 2); EvHow 3 (Some 7); EvAdd 1]).
Proof.
  split; [|split].
  - intros. apply max_step_replace.
  - intros. now apply max_oracle_greatest.
  - reflexivity.
Qed.

(** The general statement at the measures 3, 7, 2, 7: the candidate committed
    is preceded by one measure, 3, and followed by 2 and 7. *)
Lemma max_violated_commits_first_greatest_witness :
  exists cs1 c cs2 hs1 b hs2,
    [0; 1; 2; 3] = cs1 ++ c :: cs2 /\
    [Some 3; Some 7; Some 2; Some 7] = hs1 ++ b :: hs2 /\
    length hs1 = length cs1 /\
    first_greatest (less Nat.ltb) hs1 b hs2 /\
    max_violated_separation_oracle measures_env (less Nat.ltb) (initial [] 1%N) =
    (true, mkState (add_violated measures_env c []) 1%N
                   ([] ++ EvGet [0; 1; 2; 3]
                       :: how_events [0; 1; 2; 3] [Some 3; Some 7; Some 2; Some 7]
                       ++ [EvAdd c])).
Proof.
  apply (proj1 (proj2 max_violated_commits_first_greatest)
           (list nat) N nat nat measures_env (less Nat.ltb) (initial [] 1%N)).
  - exact less_strict_weak.
  - reflexivity.
Defined.

(** C4: the first-violated oracle scans the reordered candidates in order
    and commits the first one whose test is true, without testing any later
    one; if no test is true it answers false.  On the candidates
    ok, ok, violated, violated with the identity reordering it calls
    [how_violated] three times and commits the third candidate. *)
Theorem first_violated_short_circuit :
  (forall (W G Cand Meas : Type) (e : env W G Cand Meas)
          (reorder : list Cand -> M (state W G Cand Meas) (list Cand))
          (s : state W G Cand Meas)
          (pre : list Cand) (c : Cand) (post : list Cand) (m : Meas) (w2 : W),
      let cands := fst (get_candidates e (lp s)) in
      let reordered := fst (reorder cands (snd (t_get e s))) in
      let s2 := snd (reorder cands (snd (t_get e s))) in
      reordered = pre ++ c :: post ->
      Forall (fun h => h = None) (fst (eval_hows e pre (lp s2))) ->
      how_violated e c (snd (eval_hows e pre (lp s2))) = (Some m, w2) ->
      first_violated_separation_oracle e reorder s =
      (true, mkState (add_violated e c w2) (m_g s2)
                     (trace s2 ++ not_violated_events pre
                               ++ [EvHow c (Some m); EvAdd c]))) /\
  (forall (W G Cand Meas : Type) (e : env W G Cand Meas)
          (reorder : list Cand -> M (state W G Cand Meas) (list Cand))
          (s : state W G Cand Meas),
      let cands := fst (get_candidates e (lp s)) in
      let reordered := fst (reorder cands (snd (t_get e s))) in
      let s2 := snd (reorder cands (snd (t_get e s))) in
      Forall (fun h => h = None) (fst (eval_hows e reordered (lp s2))) ->
      first_violated_separation_oracle e reorder s =
      (false, mkState (snd (eval_hows e reordered (lp s2))) (m_g s2)
                      (trace s2 ++ not_violated_events reordered))) /\
  (first_violated_separation_oracle short_circuit_env identity_functor
     (initial [] 1%N) =
   (true, mkState [2] 1%N
                  [EvGet [0; 1; 2; 3]; EvHow 0 None; EvHow 1 None;
                   EvHow 2 (Some 1); EvAdd 2]) /\
   count is_how
     (trace (snd (first_violated_separation_oracle short_circuit_env
                    identity_functor (initial [] 1%N)))) = 3).
Proof.
  split; [|split].
  - intros. now apply first_oracle_hit with (post := post).
  - intros. now apply first_oracle_miss.
  - split; reflexivity.
Qed.

(** The general statement at ok, ok, violated, violated. *)
Lemma first_violated_short_circuit_witness :
  first_violated_separation_oracle short_circuit_env identity_functor
    (initial [] 1%N) =
  (true, mkState [2] 1%N
                 ([EvGet [0; 1; 2; 3]] ++ not_violated_events [0; 1]
                    ++ [EvHow 2 (Some 1); EvAdd 2])).
Proof.
  apply (proj1 first_violated_short_circuit
           (list nat) N nat nat short_circuit_env identity_functor
           (initial [] 1%N) [0; 1] 2 [3] 1 []).
  - reflexivity.
  - repeat constructor.
  - reflexivity.
Defined.

(** No candidate of [satisfied_env] is violated: both oracles answer false
    after a "not violated" for each of the two candidates. *)
Lemma oracles_exact_witness :
  (exists evs,
      trace (snd (max_violated_separation_oracle satisfied_env (less Nat.ltb)
                    (initial [] 1%N))) = [] ++ evs /\
      (forall c, In c [0; 1] -> In (EvHow c None) evs) /\
      (forall c h, In (EvHow c h) evs -> h = None)) /\
  (exists evs,
      trace (snd (first_violated_separation_oracle satisfied_env identity_functor
                    (initial [] 1%N))) = [] ++ evs /\
      (forall c, In c [0; 1] -> In (EvHow c None) evs) /\
      (forall c h, In (EvHow c h) evs -> h = None)).
Proof.
  split.
  - apply (proj1 (oracles_exact satisfied_env) (less Nat.ltb) (initial [] 1%N)).
    reflexivity.
  - apply (proj2 (oracles_exact satisfied_env) identity_functor (initial [] 1%N)).
    + intros cs s. split; [apply incl_refl|]. split; [apply incl_refl|].
    split; [reflexivity|].
      exists []. split; [apply (eq_sym (app_nil_r _)) | intros ev []].
    + reflexivity.
Defined.

(** One call of the first-violated oracle on three violated candidates adds
    one row. *)
Lemma oracles_add_at_most_once_witness :
  exists evs,
    trace (snd (first_violated_separation_oracle three_rows_env identity_functor
                  (initial [100; 101] 1%N))) = [] ++ evs /\
    count is_add evs = 1.
Proof.
  apply (proj1 (proj2 (oracles_add_at_most_once three_rows_env))
           identity_functor (initial [100; 101] 1%N)).
  intros cs s. split; [apply incl_refl|]. split; [apply incl_refl|].
    split; [reflexivity|].
  exists []. split; [apply (eq_sym (app_nil_r _)) | intros ev []].
Defined.

(** The three oracles on an empty candidate sequence. *)
Lemma empty_candidates_witness :
  max_violated_separation_oracle empty_env (less Nat.ltb) (initial [] 1%N) =
    (false, mkState [] 1%N [EvGet []]) /\
  first_violated_separation_oracle empty_env identity_functor (initial [] 1%N) =
    (false, mkState [] 1%N [EvGet []]) /\
  random_violated_separation_oracle empty_env (initial [] 1%N) =
    (false, mkState [] 16807%N [EvGet []; EvDraw 0 0 0]) /\
  rotate (@nil nat) 0 = [] /\
  (draws_in_range empty_env -> 0 = 0).
Proof.
  apply (empty_candidates empty_env (less Nat.ltb) (initial [] 1%N)).
  reflexivity.
Defined.

(** ** The random rotation *)
Section Rotation.
Context {Cand : Type}.

Lemma nth_error_combine_seq (l : list Cand) (a k : nat) :
  nth_error (combine (seq a (length l)) l) k =
  option_map (pair (a + k)) (nth_error l k).
Proof.
  revert a k. induction l as [|x l IH]; intros a [|k]; simpl; auto.
  - now rewrite Nat.add_0_r.
  - rewrite IH. now rewrite Nat.add_succ_r.
Qed.

Lemma map_deref_rotate (rng : list Cand) (off : nat) :
  map deref (rotate (counting_range rng) off) = rotate rng off.
Proof.
  unfold rotate. rewrite map_app, <- skipn_map, <- firstn_map.
  now rewrite map_deref_counting_range.
Qed.

Lemma scan_start_below (rng : list Cand) (off : nat) :
  off < length rng -> scan_start rng off = Some off.
Proof.
  intros Hlt. unfold scan_start, rotate.
  destruct (skipn off (counting_range rng)) as [|it rest] eqn:Es.
  - apply (f_equal (@length _)) in Es. rewrite length_skipn, length_counting_range in Es.
    simpl in Es. lia.
  - pose proof (hd_error_skipn off (counting_range rng)) as Hh.
    rewrite Es in Hh. cbn [hd_error] in Hh. cbn [app hd_error option_map].
    unfold counting_range in Hh. rewrite nth_error_combine_seq in Hh.
    destruct (nth_error rng off); inversion Hh. reflexivity.
Qed.

Lemma scan_start_end (rng : list Cand) :
  0 < length rng -> scan_start rng (length rng) = Some 0.
Proof.
  intros Hlt. unfold scan_start, rotate.
  rewrite <- (length_counting_range rng) at 1 2.
  rewrite skipn_all, firstn_all. cbn [app].
  destruct rng as [|x rng]; [simpl in Hlt; lia | reflexivity].
Qed.

Lemma count_eqb_seq (i a n : nat) :
  length (filter (fun off => off =? i) (seq a n)) =
  if (a <=? i) && (i <? a + n) then 1 else 0.
Proof.
  revert a. induction n as [|n IH]; intros a; simpl.
  - destruct (Nat.leb_spec a i), (Nat.ltb_spec i (a + 0)); simpl; auto; lia.
  - destruct (Nat.eqb_spec a i); simpl; rewrite IH;
      destruct (Nat.leb_spec (Datatypes.S a) i), (Nat.leb_spec a i),
               (Nat.ltb_spec i (Datatypes.S a + n)), (Nat.ltb_spec i (a + Datatypes.S n));
      simpl; auto; lia.
Qed.

Lemma starts_at_count (rng : list Cand) (i : nat) :
  i < length rng ->
  starts_at rng i = if i =? 0 then 2 else 1.
Proof.
  intros Hi. unfold starts_at, offsets.
  rewrite seq_app, filter_app, length_app. cbn [seq filter Nat.add].
  rewrite scan_start_end by lia.
  rewrite (filter_ext_in _ (fun off => off =? i)).
  2:{ intros off Hin. apply in_seq in Hin. rewrite scan_start_below by lia. reflexivity. }
  rewrite count_eqb_seq.
  replace (0 <=? i) with true by (symmetry; apply Nat.leb_le; lia).
  replace (i <? 0 + length rng) with true by (symmetry; apply Nat.ltb_lt; lia).
  destruct i; reflexivity.
Qed.
End Rotation.

(** C7, as stated: every candidate would be the start of the scan for the
    same number of offsets.  On two candidates the offsets 0 and 2 both start
    at the first one and only the offset 1 starts at the second. *)
Lemma random_rotate_uniform_start_counterexample :
  starts_at [10; 20] 0 = 2 /\ starts_at [10; 20] 1 = 1 /\
  ~ (forall (rng : list nat) (i j : nat),
        i < length rng -> j < length rng -> starts_at rng i = starts_at rng j).
Proof.
  split; [reflexivity|]. split; [reflexivity|].
  intros H. specialize (H [10; 20] 0 1). simpl in H.
  assert (Hc : starts_at [10; 20] 0 = starts_at [10; 20] 1) by (apply H; lia).
  discriminate Hc.
Qed.

(** C7, amended: the reorder transform of the random-violated oracle draws
    an offset from 0 to the length, both included, and rotates the candidates
    by it; a draw in range is a valid offset.  Of the length + 1 offsets,
    two (0 and the length) start the scan at the first candidate and exactly
    one starts it at each other candidate. *)
Theorem random_rotate_start_frequency
    (W G Cand Meas : Type) (e : env W G Cand Meas)
    (rng : list Cand) (s : state W G Cand Meas) (i : nat) :
  i < length rng ->
  let off := fst (uniform_int_distribution e 0 (length rng) (m_g s)) in
  make_random_rotate e rng s =
    (rotate rng off,
     mkState (lp s) (snd (uniform_int_distribution e 0 (length rng) (m_g s)))
             (trace s ++ [EvDraw 0 (length rng) off])) /\
  (draws_in_range e -> off <= length rng) /\
  map deref (rotate (counting_range rng) off) = rotate rng off /\
  length (offsets (length rng)) = length rng + 1 /\
  starts_at rng i = if i =? 0 then 2 else 1.
Proof.
  intros Hi off. split; [apply random_rotate_run|].
  split; [intros Hr; apply (Hr 0 (length rng) (m_g s)); lia|].
  split; [apply map_deref_rotate|].
  split; [unfold offsets; apply length_seq|].
  now apply starts_at_count.
Qed.

(** Five candidates: the second one starts the scan for one offset of six. *)
Lemma random_rotate_start_frequency_witness :
  make_random_rotate three_rows_env [10; 20; 30; 40; 50] (initial [] 1%N) =
    (rotate [10; 20; 30; 40; 50] 1,
     mkState [] 16807%N [EvDraw 0 5 1]) /\
  starts_at [10; 20; 30; 40; 50] 1 = 1.
Proof.
  destruct (@random_rotate_start_frequency (list nat) N nat nat three_rows_env
              [10; 20; 30; 40; 50] (initial [] 1%N) 1) as (H1 & _ & _ & _ & H5).
  - simpl. lia.
  - split; [exact H1 | exact H5].
Defined.


(** ** The generator of the random-violated oracle *)
Section Generator.
Context {W G Cand Meas : Type}.
Variable e : env W G Cand Meas.
Local Notation "'St'" := (state W G Cand Meas) (only parsing).

Lemma count_draw_not_violated (cs : list Cand) :
  count is_draw (@not_violated_events Cand Meas cs) = 0.
Proof.
  apply count_zero. intros ev Hin. unfold not_violated_events in Hin.
  apply in_map_iff in Hin. destruct Hin as (c & <- & _). reflexivity.
Qed.

Lemma random_oracle_run (s : St) :
  let cands := fst (get_candidates e (lp s)) in
  let len := length cands in
  let off := fst (uniform_int_distribution e 0 len (m_g s)) in
  let g' := snd (uniform_int_distribution e 0 len (m_g s)) in
  exists b w evs,
    count is_draw evs = 0 /\
    forall s' : St, lp s' = lp s -> m_g s' = m_g s ->
      random_violated_separation_oracle e s' =
      (b, mkState w g' (trace s' ++ EvGet cands :: EvDraw 0 len off :: evs)).
Proof.
  intros cands len off g'.
  set (w1 := snd (get_candidates e (lp s))).
  assert (Hprefix : forall s' : St, lp s' = lp s -> m_g s' = m_g s ->
    random_violated_separation_oracle e s' =
    first_scan (t_how e) (t_add e) (counting_range (rotate cands off))
      (mkState w1 g' (trace s' ++ [EvGet cands; EvDraw 0 len off]))).
  { intros s' Hlp Hg.
    unfold random_violated_separation_oracle, first_violated_separation_oracle,
      add_first_violated, bind.
    rewrite t_get_run, Hlp. cbn [fst snd]. rewrite random_rotate_run.
    cbn [lp m_g trace]. rewrite Hg. fold cands. fold len. fold off. fold g'. fold w1.
    now rewrite <- app_assoc. }
  destruct (first_scan_cases e (counting_range (rotate cands off))
              (mkState w1 g' (trace s ++ [EvGet cands; EvDraw 0 len off])))
    as [(pre & it & post & m & w2 & w3 & Hits & Hn & Hw & Hh & _) | [Hn _]];
    cbn [lp m_g trace] in *.
  - exists true, (add_violated e (deref it) w3),
      (not_violated_events (map deref pre) ++ [EvHow (deref it) (Some m); EvAdd (deref it)]).
    split.
    { rewrite count_app, count_draw_not_violated. reflexivity. }
    intros s' Hlp Hg. rewrite (Hprefix s' Hlp Hg), Hits.
    rewrite first_scan_hit with (m := m) (w2 := w3); cbn [lp m_g trace].
    + now rewrite <- app_assoc.
    + exact Hn.
    + now rewrite Hw.
  - exists false, (snd (eval_hows e (map deref (counting_range (rotate cands off))) w1)),
      (not_violated_events (map deref (counting_range (rotate cands off)))).
    split; [apply count_draw_not_violated|].
    intros s' Hlp Hg. rewrite (Hprefix s' Hlp Hg).
    rewrite first_scan_miss; cbn [lp m_g trace]; [|exact Hn].
    now rewrite <- app_assoc.
Qed.

(** C9: the rotation and the whole oracle are functions of the generator
    state and of their inputs: two runs from equal generator states on equal
    inputs give the same offset, the same scan order, the same answer, the
    same calls and the same generator state afterwards.  Each call of the
    oracle draws exactly once from the generator it holds and leaves it
    advanced, so the next call draws from the state the previous one left. *)
Theorem random_violated_reproducible :
  (forall (rng : list Cand) (s1 s2 : St),
      m_g s1 = m_g s2 ->
      fst (make_random_rotate e rng s1) = fst (make_random_rotate e rng s2) /\
      m_g (snd (make_random_rotate e rng s1)) = m_g (snd (make_random_rotate e rng s2)) /\
      exists off,
        fst (make_random_rotate e rng s1) = rotate rng off /\
        trace (snd (make_random_rotate e rng s1)) = trace s1 ++ [EvDraw 0 (length rng) off] /\
        trace (snd (make_random_rotate e rng s2)) = trace s2 ++ [EvDraw 0 (length rng) off]) /\
  (forall s1 s2 : St,
      m_g s1 = m_g s2 -> lp s1 = lp s2 ->
      let r1 := random_violated_separation_oracle e s1 in
      let r2 := random_violated_separation_oracle e s2 in
      fst r1 = fst r2 /\ lp (snd r1) = lp (snd r2) /\ m_g (snd r1) = m_g (snd r2) /\
      exists evs, trace (snd r1) = trace s1 ++ evs /\ trace (snd r2) = trace s2 ++ evs) /\
  (forall s : St,
      let cands := fst (get_candidates e (lp s)) in
      let draw := uniform_int_distribution e 0 (length cands) (m_g s) in
      let r := random_violated_separation_oracle e s in
      m_g (snd r) = snd draw /\
      exists evs,
        trace (snd r) = trace s ++ EvGet cands :: EvDraw 0 (length cands) (fst draw) :: evs /\
        count is_draw evs = 0) /\
  (forall s : St,
      let r1 := random_violated_separation_oracle e s in
      let r2 := random_violated_separation_oracle e (snd r1) in
      let len1 := length (fst (get_candidates e (lp s))) in
      let len2 := length (fst (get_candidates e (lp (snd r1)))) in
      let g1 := snd (uniform_int_distribution e 0 len1 (m_g s)) in
      m_g (snd r1) = g1 /\
      m_g (snd r2) = snd (uniform_int_distribution e 0 len2 g1) /\
      exists evs,
        trace (snd r2) =
        trace (snd r1) ++ EvGet (fst (get_candidates e (lp (snd r1))))
          :: EvDraw 0 len2 (fst (uniform_int_distribution e 0 len2 g1)) :: evs).
Proof.
  assert (Hone : forall s : St,
      let cands := fst (get_candidates e (lp s)) in
      let draw := uniform_int_distribution e 0 (length cands) (m_g s) in
      let r := random_violated_separation_oracle e s in
      m_g (snd r) = snd draw /\
      exists evs,
        trace (snd r) = trace s ++ EvGet cands :: EvDraw 0 (length cands) (fst draw) :: evs /\
        count is_draw evs = 0).
  { intros s cands draw r.
    destruct (random_oracle_run s) as (b & w & evs & Hc & Hrun).
    unfold r. rewrite (Hrun s eq_refl eq_refl). cbn [snd m_g trace].
    split; [reflexivity|]. exists evs. split; [reflexivity | exact Hc]. }
  split; [|split; [|split]].
  - intros rng s1 s2 Hg. rewrite !random_rotate_run. cbn [fst snd m_g trace].
    rewrite Hg. split; [reflexivity|]. split; [reflexivity|].
    eexists. split; [reflexivity|]. split; reflexivity.
  - intros s1 s2 Hg Hlp r1 r2.
    destruct (random_oracle_run s1) as (b & w & evs & _ & Hrun).
    unfold r1, r2. rewrite (Hrun s1 eq_refl eq_refl).
    rewrite (Hrun s2 (eq_sym Hlp) (eq_sym Hg)). cbn [fst snd lp m_g trace].
    repeat (split; [reflexivity|]). eexists. split; reflexivity.
  - exact Hone.
  - intros s r1 r2 len1 len2 g1.
    destruct (Hone s) as [Hg1 _]. fold r1 in Hg1.
    destruct (Hone (snd r1)) as [Hg2 (evs & Htr & _)]. fold r2 in Hg2, Htr.
    split; [exact Hg1|]. split.
    + rewrite Hg2. unfold len2, g1, len1. now rewrite Hg1.
    + exists evs. rewrite Htr. unfold len2, g1, len1. now rewrite Hg1.
Qed.
End Generator.


(** Two runs of the random-violated oracle from the generator state 42, under
    different histories. *)
Lemma random_violated_reproducible_witness :
  let r1 := random_violated_separation_oracle five_env (initial [] 42%N) in
  let r2 := random_violated_separation_oracle five_env
              (mkState [] 42%N [EvSolve OPTIMAL]) in
  fst r1 = fst r2 /\ lp (snd r1) = lp (snd r2) /\ m_g (snd r1) = m_g (snd r2) /\
  exists evs, trace (snd r1) = [] ++ evs /\ trace (snd r2) = [EvSolve OPTIMAL] ++ evs.
Proof.
  apply (proj1 (proj2 (random_violated_reproducible five_env))
           (initial [] 42%N) (mkState [] 42%N [EvSolve OPTIMAL])); reflexivity.
Defined.

(** ** Termination of the loop *)
Section Termination.
Context {W G Cand Meas : Type}.
Variable e : env W G Cand Meas.
Variable pool : list Cand.
Local Notation "'St'" := (state W G Cand Meas) (only parsing).

Lemma no_new_violation_refl (w : W) : no_new_violation e w w.
Proof. intros c H. exact H. Qed.

Lemma no_new_violation_trans (w1 w2 w3 : W) :
  no_new_violation e w1 w2 -> no_new_violation e w2 w3 -> no_new_violation e w1 w3.
Proof. intros H12 H23 c H. apply H12, H23, H. Qed.

Lemma violations_le (w w' : W) :
  no_new_violation e w w' -> violations e pool w' <= violations e pool w.
Proof.
  intros Hn. unfold violations.
  induction pool as [|c l IH]; simpl; [lia|].
  destruct (violated e w' c) eqn:E'.
  - rewrite (Hn c E'). simpl. lia.
  - destruct (violated e w c); simpl; lia.
Qed.

Lemma violations_lt (w w' : W) (c : Cand) :
  no_new_violation e w w' -> In c pool ->
  violated e w c = true -> violated e w' c = false ->
  violations e pool w' < violations e pool w.
Proof.
  intros Hn Hin Hv Hv'. unfold violations.
  induction pool as [|c0 l IH]; simpl; [destruct Hin|].
  destruct Hin as [-> | Hin].
  - rewrite Hv, Hv'. simpl.
    assert (Hle : length (filter (violated e w') l) <= length (filter (violated e w) l)).
    { clear IH. induction l as [|x l IHl]; simpl; [lia|].
      destruct (violated e w' x) eqn:E'.
      - rewrite (Hn x E'). simpl. lia.
      - destruct (violated e w x); simpl; lia. }
    lia.
  - specialize (IH Hin).
    destruct (violated e w' c0) eqn:E'.
    + rewrite (Hn c0 E'). simpl. lia.
    + destruct (violated e w c0); simpl; lia.
Qed.

Lemma eval_hows_no_new (cs : list Cand) (w : W) :
  monotone e -> no_new_violation e w (snd (eval_hows e cs w)).
Proof.
  intros (_ & _ & Hhow & _). revert w.
  induction cs as [|c cs IH]; intros w; simpl; [apply no_new_violation_refl|].
  specialize (Hhow c w). destruct (how_violated e c w) as [h w1].
  specialize (IH w1). destruct (eval_hows e cs w1) as [hs w2].
  cbn [snd] in *. eapply no_new_violation_trans; eauto.
Qed.

Lemma eval_hows_measured (its : list (iterator Cand)) (w : W)
    (h : option Meas) (it : iterator Cand) :
  monotone e ->
  In (h, it) (combine (fst (eval_hows e (map deref its) w)) its) ->
  exists wk, no_new_violation e w wk /\ fst (how_violated e (deref it) wk) = h.
Proof.
  intros Hm. pose proof Hm as (_ & _ & Hhow & _). revert w.
  induction its as [|i its IH]; intros w Hin; simpl in Hin; [destruct Hin|].
  specialize (Hhow (deref i) w).
  destruct (how_violated e (deref i) w) as [h0 w1] eqn:Eh.
  specialize (IH w1). destruct (eval_hows e (map deref its) w1) as [hs w2].
  cbn [fst snd] in *. destruct Hin as [Heq | Hin].
  - inversion Heq; subst. exists w. split; [apply no_new_violation_refl|].
    now rewrite Eh.
  - destruct (IH Hin) as (wk & Hnk & Hk). exists wk. split; [|exact Hk].
    eapply no_new_violation_trans; eauto.
Qed.

Lemma select_max_in (cmp : option Meas -> option Meas -> bool)
    (hcs : list (option Meas * iterator Cand))
    (most : option (option Meas * iterator Cand)) (m : option Meas * iterator Cand) :
  select_max cmp hcs most = Some m ->
  (most = Some m \/ (In m hcs /\ truthy (fst m) = true)).
Proof.
  revert most. induction hcs as [|[h c] hcs IH]; intros most Hsel; simpl in Hsel.
  - now left.
  - apply IH in Hsel. destruct Hsel as [Hstep | [Hin Ht]].
    + unfold max_step in Hstep. cbn [fst snd] in Hstep.
      destruct (truthy h) eqn:Eh; cbn [negb] in Hstep.
      * destruct (negb (truthy most)
                  || match most with Some m0 => cmp (fst m0) h | None => false end).
        -- inversion Hstep; subst. right. split; [now left | exact Eh].
        -- now left.
      * now left.
    + right. split; [now right | exact Ht].
Qed.
Lemma max_progresses (cmp : option Meas -> option Meas -> bool) :
  monotone e -> finite_candidates e pool -> add_satisfies e ->
  progresses e pool (max_violated_separation_oracle e cmp).
Proof.
  intros Hm Hfin Hsat s. pose proof Hm as (_ & Hget & _ & Hadd).
  rewrite max_oracle_run.
  set (cands := fst (get_candidates e (lp s))).
  set (w1 := snd (get_candidates e (lp s))).
  assert (Hrun : no_new_violation e (lp s) (snd (eval_hows e cands w1))).
  { eapply no_new_violation_trans; [apply Hget | now apply eval_hows_no_new]. }
  destruct (select_max cmp _ None) as [[h it]|] eqn:Es; cbn [fst snd lp].
  - assert (Hall : no_new_violation e (lp s)
                     (add_violated e (deref it) (snd (eval_hows e cands w1)))).
    { eapply no_new_violation_trans; [exact Hrun | apply Hadd]. }
    split; [exact Hall|]. intros _.
    apply select_max_in in Es. destruct Es as [Hd | [Hin Ht]]; [discriminate|].
    cbn [fst] in Ht.
    assert (Hc : In (deref it) cands).
    { apply in_combine_r in Hin.
      rewrite <- (map_deref_counting_range cands). now apply in_map. }
    rewrite <- (map_deref_counting_range cands) in Hin at 1.
    destruct (eval_hows_measured _ _ _ _ Hm Hin) as (wk & Hnk & Hk).
    apply violations_lt with (c := deref it).
    + exact Hall.
    + apply (Hfin (lp s)). exact Hc.
    + apply Hget. apply Hnk. unfold violated. now rewrite Hk.
    + apply Hsat.
  - split; [exact Hrun | discriminate].
Qed.

Lemma first_progresses (reorder : list Cand -> M St (list Cand)) :
  monotone e -> finite_candidates e pool -> add_satisfies e ->
  reordering reorder ->
  progresses e pool (first_violated_separation_oracle e reorder).
Proof.
  intros Hm Hfin Hsat Hre s. pose proof Hm as (_ & Hget & Hhow & Hadd).
  destruct (Hre (fst (get_candidates e (lp s))) (snd (t_get e s)))
    as (_ & Hincl & Hlp & _).
  assert (Hlp1 : lp (snd (t_get e s)) = snd (get_candidates e (lp s)))
    by (rewrite t_get_run; reflexivity).
  rewrite Hlp1 in Hlp.
  destruct (first_oracle_cases e reorder s)
    as [(pre & c & post & m & w1 & w2 & Hsplit & _ & Hw & Hh & Hrun) | [_ Hrun]];
    rewrite Hrun; cbn [fst snd lp]; rewrite Hlp in *.
  - assert (H1 : no_new_violation e (lp s) w1).
    { rewrite <- Hw. eapply no_new_violation_trans;
        [apply Hget | now apply eval_hows_no_new]. }
    assert (H2 : no_new_violation e (lp s) (add_violated e c w2)).
    { eapply no_new_violation_trans; [exact H1|].
      eapply no_new_violation_trans; [|apply Hadd].
      specialize (Hhow c w1). now rewrite Hh in Hhow. }
    split; [exact H2|]. intros _.
    apply violations_lt with (c := c).
    + exact H2.
    + apply (Hfin (lp s)). apply Hincl. rewrite Hsplit.
      apply in_or_app. right. now left.
    + apply H1. unfold violated. now rewrite Hh.
    + apply Hsat.
  - split; [|discriminate].
    eapply no_new_violation_trans; [apply Hget | now apply eval_hows_no_new].
Qed.

Lemma loop_terminates (oracle : M St bool) :
  monotone e -> progresses e pool oracle ->
  forall n (s : St),
    violations e pool (lp s) <= n ->
    exists res s',
      row_generation (t_try oracle) (t_solve e) (Datatypes.S n) s = Some (res, s').
Proof.
  intros (Hsolve & _) Hp. induction n as [|n IH]; intros s Hle;
    rewrite row_generation_step; cbv zeta;
    (assert (Hs1 : violations e pool (lp (snd (t_solve e s))) <= violations e pool (lp s))
      by (rewrite t_solve_run; cbn [snd lp]; apply violations_le, Hsolve));
    destruct (problem_type_eqb _ OPTIMAL); eauto;
    destruct (Hp (snd (t_solve e s))) as [_ Hlt];
    destruct (fst (oracle (snd (t_solve e s)))) eqn:Eb; eauto;
    specialize (Hlt eq_refl).
  - lia.
  - apply IH. rewrite t_try_run. cbn [snd lp]. lia.
Qed.


Lemma add_satisfies_resolve :
  monotone e -> add_satisfies e -> resolve_satisfies e.
Proof.
  intros (Hsolve & _) Hsat c w.
  destruct (violated e (snd (solve_lp e (add_violated e c w))) c) eqn:Ev;
    [|reflexivity].
  apply Hsolve in Ev. rewrite Hsat in Ev. discriminate.
Qed.




End Termination.

(** ** The loop on concrete LPs *)



Lemma stubborn_not_resolve_satisfies : ~ resolve_satisfies (stubborn_env [0]).
Proof. intros H. specialize (H 0 []). discriminate H. Qed.


Lemma three_rows_violated (w : list nat) (c : nat) :
  violated three_rows_env w c = negb (existsb (Nat.eqb c) w).
Proof.
  unfold violated, three_rows_env, pool_env. cbn [how_violated fst].
  now destruct (existsb (Nat.eqb c) w).
Qed.

Lemma three_rows_monotone : monotone three_rows_env.
Proof.
  repeat split; try (intros w c H; exact H); try (intros c w c' H; exact H).
  intros c w c'. rewrite !three_rows_violated.
  cbn [add_violated three_rows_env pool_env]. rewrite existsb_app.
  destruct (existsb (Nat.eqb c') w); [discriminate | reflexivity].
Qed.

Lemma three_rows_add_satisfies : add_satisfies three_rows_env.
Proof.
  intros c w. rewrite three_rows_violated.
  cbn [add_violated three_rows_env pool_env]. rewrite existsb_app.
  cbn [existsb]. rewrite Nat.eqb_refl, orb_true_r. reflexivity.
Qed.




(** In [deferred_env] a candidate stays violated between its addition and
    the next solve. *)
Lemma deferred_not_add_satisfies : ~ add_satisfies (deferred_env [0; 1; 2]).
Proof. intros H. specialize (H 0 ([], [])). discriminate H. Qed.


(** The run on [deferred_env]: four solves, three rows added, OPTIMAL. *)
Example row_generation_deferred_run :
  row_generation
    (t_try (first_violated_separation_oracle (deferred_env [0; 1; 2])
              identity_functor))
    (t_solve (deferred_env [0; 1; 2])) 4 (mkState ([100; 101], []) 1%N [])
  = Some (OPTIMAL,
          mkState ([100; 101; 0; 1; 2], []) 1%N
            [EvSolve OPTIMAL; EvGet [0; 1; 2]; EvHow 0 (Some 1); EvAdd 0; EvTry true;
             EvSolve OPTIMAL; EvGet [0; 1; 2]; EvHow 0 None; EvHow 1 (Some 1);
             EvAdd 1; EvTry true;
             EvSolve OPTIMAL; EvGet [0; 1; 2]; EvHow 0 None; EvHow 1 None;
             EvHow 2 (Some 1); EvAdd 2; EvTry true;
             EvSolve OPTIMAL; EvGet [0; 1; 2]; EvHow 0 None; EvHow 1 None;
             EvHow 2 None; EvTry false]).
Proof. reflexivity. Qed.

(** The end-to-end run: two initial rows, three violated candidates, the
    first-violated oracle.  Four solves, three rows added, OPTIMAL. *)
Example row_generation_end_to_end :
  row_generation
    (t_try (first_violated_separation_oracle three_rows_env identity_functor))
    (t_solve three_rows_env) 4 (initial [100; 101] 1%N)
  = Some (OPTIMAL,
          mkState [100; 101; 0; 1; 2] 1%N
            [EvSolve OPTIMAL; EvGet [0; 1; 2]; EvHow 0 (Some 1); EvAdd 0; EvTry true;
             EvSolve OPTIMAL; EvGet [0; 1; 2]; EvHow 0 None; EvHow 1 (Some 1);
             EvAdd 1; EvTry true;
             EvSolve OPTIMAL; EvGet [0; 1; 2]; EvHow 0 None; EvHow 1 None;
             EvHow 2 (Some 1); EvAdd 2; EvTry true;
             EvSolve OPTIMAL; EvGet [0; 1; 2]; EvHow 0 None; EvHow 1 None;
             EvHow 2 None; EvTry false]).
Proof. reflexivity. Qed.

(** A first solve that fails: the oracle is not called. *)
Example row_generation_infeasible :
  row_generation
    (t_try (max_violated_separation_oracle infeasible_env (less Nat.ltb)))
    (t_solve infeasible_env) 1 (initial [] 1%N)
  = Some (INFEASIBLE, mkState [] 1%N [EvSolve INFEASIBLE]).
Proof. reflexivity. Qed.

(** Two calls in a row of the random-violated oracle on five candidates,
    the generator starting at 42: the first call draws the offset 0, the
    second draws the offset 1 from the state the first one left. *)
Example random_violated_two_calls :
  let r1 := random_violated_separation_oracle five_env (initial [] 42%N) in
  let r2 := random_violated_separation_oracle five_env (snd r1) in
  m_g (snd r1) = 705894%N /\ m_g (snd r2) = 1126542223%N /\
  trace (snd r2) =
  [EvGet [0; 1; 2; 3; 4]; EvDraw 0 5 0;
   EvHow 0 None; EvHow 1 None; EvHow 2 None; EvHow 3 None; EvHow 4 None;
   EvGet [0; 1; 2; 3; 4]; EvDraw 0 5 1;
   EvHow 1 None; EvHow 2 None; EvHow 3 None; EvHow 4 None; EvHow 0 None].
Proof. repeat split; reflexivity. Qed.


(** * Further properties of the loop and of the oracles *)

(** ** How the loop ends *)
Section LoopEnd.
Context {W G Cand Meas : Type}.
Variable e : env W G Cand Meas.
Local Notation "'St'" := (state W G Cand Meas) (only parsing).

Lemma loop_end (oracle : M St bool) (fuel : nat) (s : St)
    (res : problem_type) (s' : St) :
  row_generation (t_try oracle) (t_solve e) fuel s = Some (res, s') ->
  exists s0 : St,
    res = fst (solve_lp e (lp s0)) /\
    if problem_type_eqb res OPTIMAL
    then fst (oracle (snd (t_solve e s0))) = false /\
         s' = snd (t_try oracle (snd (t_solve e s0)))
    else s' = snd (t_solve e s0).
Proof.
  revert s. induction fuel as [|fuel IH]; intros s H; [discriminate|].
  rewrite row_generation_step in H. cbv zeta in H.
  destruct (problem_type_eqb (fst (solve_lp e (lp s))) OPTIMAL) eqn:Eo.
  - destruct (fst (oracle (snd (t_solve e s)))) eqn:Eb.
    + apply IH in H. exact H.
    + inversion H; subst res s'. exists s. rewrite Eo. auto.
  - inversion H; subst res s'. exists s. rewrite Eo. auto.
Qed.

(** X1: whatever the oracle, a run of [row_generation] that returns ends with
    a solve whose status is the one returned.  If that status is not OPTIMAL
    the state returned is the one that solve left: nothing is called after
    it.  If it is OPTIMAL the oracle was called once more on that state,
    answered false, and the state returned is the one it left. *)
Theorem row_generation_last_round (oracle : M St bool)
    (fuel : nat) (s : St) (res : problem_type) (s' : St) :
  row_generation (t_try oracle) (t_solve e) fuel s = Some (res, s') ->
  exists s0 : St,
    res = fst (solve_lp e (lp s0)) /\
    (res <> OPTIMAL -> s' = snd (t_solve e s0)) /\
    (res = OPTIMAL ->
     fst (oracle (snd (t_solve e s0))) = false /\
     s' = snd (t_try oracle (snd (t_solve e s0)))).
Proof.
  intros H. destruct (loop_end _ _ _ H) as (s0 & Hres & Hend).
  exists s0. split; [exact Hres|].
  destruct res; cbn [problem_type_eqb] in Hend.
  - split; [intros Hne; now elim Hne | intros _; exact Hend].
  - split; [intros _; exact Hend | discriminate].
  - split; [intros _; exact Hend | discriminate].
Qed.
End LoopEnd.

(** The loop on the LP with three rows to add ends with an optimal solve
    after which the oracle answers false. *)
Lemma row_generation_last_round_witness :
  exists s0 : state (list nat) N nat nat,
    OPTIMAL = fst (solve_lp three_rows_env (lp s0)) /\
    fst (first_violated_separation_oracle three_rows_env identity_functor
           (snd (t_solve three_rows_env s0))) = false /\
    three_rows_final
    = snd (t_try (first_violated_separation_oracle three_rows_env identity_functor)
             (snd (t_solve three_rows_env s0))).
Proof.
  destruct (@row_generation_last_round (list nat) N nat nat three_rows_env
              (first_violated_separation_oracle three_rows_env identity_functor)
              4 (initial [100; 101] 1%N) OPTIMAL three_rows_final)
    as (s0 & Hres & _ & Hopt).
  - reflexivity.
  - exists s0. split; [exact Hres|]. apply Hopt. reflexivity.
Defined.

(** ** What the answer of an oracle tells *)
Section Answers.
Context {W G Cand Meas : Type}.
Variable e : env W G Cand Meas.
Local Notation "'St'" := (state W G Cand Meas) (only parsing).

Lemma max_step_truthy (cmp : option Meas -> option Meas -> bool)
    (most : option (option Meas * iterator Cand)) (h : option Meas)
    (c : iterator Cand) :
  truthy (max_step cmp most h c) = truthy most || truthy h.
Proof.
  unfold max_step. destruct h as [m|]; cbn [truthy negb].
  - destruct most as [b|]; cbn [truthy negb orb]; [|reflexivity].
    now destruct (cmp (fst b) (Some m)).
  - now rewrite orb_false_r.
Qed.

Lemma select_max_truthy (cmp : option Meas -> option Meas -> bool)
    (hcs : list (option Meas * iterator Cand))
    (most : option (option Meas * iterator Cand)) :
  truthy (select_max cmp hcs most) =
  truthy most || existsb (fun hc => truthy (fst hc)) hcs.
Proof.
  revert most. induction hcs as [|[h c] hcs IH]; intros most; simpl.
  - now rewrite orb_false_r.
  - rewrite IH, max_step_truthy. now rewrite orb_assoc.
Qed.

Lemma existsb_fst_combine (hs : list (option Meas)) (its : list (iterator Cand)) :
  length hs = length its ->
  existsb (fun hc => truthy (fst hc)) (combine hs its) = existsb truthy hs.
Proof.
  revert its. induction hs as [|h hs IH]; intros [|it its] Hl; simpl in *;
    try discriminate; try reflexivity.
  rewrite IH by lia. reflexivity.
Qed.

Lemma max_answer (cmp : option Meas -> option Meas -> bool) (s : St) :
  fst (max_violated_separation_oracle e cmp s) = existsb truthy (measures e s).
Proof.
  rewrite max_oracle_run. unfold measures.
  rewrite <- (existsb_fst_combine _
                (counting_range (fst (get_candidates e (lp s))))).
  2:{ rewrite length_counting_range. apply eval_hows_length. }
  pose proof (select_max_truthy cmp
                (combine (fst (eval_hows e (fst (get_candidates e (lp s)))
                                 (snd (get_candidates e (lp s)))))
                         (counting_range (fst (get_candidates e (lp s))))) None) as Ht.
  cbn [truthy orb] in Ht. rewrite <- Ht.
  now destruct (select_max cmp _ None).
Qed.

Lemma first_scan_answer (its : list (iterator Cand)) (s : St) :
  fst (first_scan (t_how e) (t_add e) its s) =
  existsb truthy (fst (eval_hows e (map deref its) (lp s))).
Proof.
  revert s. induction its as [|it its IH]; intros s; [reflexivity|].
  simpl. unfold bind. rewrite t_how_run.
  destruct (how_violated e (deref it) (lp s)) as [[m|] w1]; cbn [fst snd truthy].
  - destruct (eval_hows e (map deref its) w1). reflexivity.
  - rewrite IH. cbn [lp].
    destruct (eval_hows e (map deref its) w1). reflexivity.
Qed.

Lemma first_answer (reorder : list Cand -> M St (list Cand)) (s : St) :
  let cands := fst (get_candidates e (lp s)) in
  let reordered := fst (reorder cands (snd (t_get e s))) in
  let s2 := snd (reorder cands (snd (t_get e s))) in
  fst (first_violated_separation_oracle e reorder s) =
  existsb truthy (fst (eval_hows e reordered (lp s2))).
Proof.
  intros cands reordered s2.
  unfold first_violated_separation_oracle, add_first_violated, bind.
  destruct (t_get e s) as [cands' s1] eqn:Eg.
  assert (cands' = cands) by (rewrite t_get_run in Eg; now inversion Eg).
  subst cands'. cbn [snd] in reordered, s2.
  destruct (reorder cands s1) as [r s2'] eqn:Er.
  cbn [fst snd] in reordered, s2. subst reordered s2.
  rewrite first_scan_answer. now rewrite map_deref_counting_range.
Qed.

(** X2: the max-violated oracle and the first-violated oracle with the
    default ordering give the same answer, whatever the callables do: both
    answer true exactly when one of the measures met by testing the candidates
    in order is a violation. *)
Theorem max_and_first_agree (cmp : option Meas -> option Meas -> bool) (s : St) :
  fst (max_violated_separation_oracle e cmp s) = existsb truthy (measures e s) /\
  fst (first_violated_separation_oracle e identity_functor s)
  = existsb truthy (measures e s) /\
  fst (max_violated_separation_oracle e cmp s)
  = fst (first_violated_separation_oracle e identity_functor s).
Proof.
  assert (Hf : fst (first_violated_separation_oracle e identity_functor s)
               = existsb truthy (measures e s)).
  { rewrite first_answer. unfold identity_functor, ret. cbn [fst snd].
    rewrite t_get_run. reflexivity. }
  split; [apply max_answer|]. split; [exact Hf|].
  now rewrite max_answer, Hf.
Qed.

Lemma eval_hows_pure (cs : list Cand) (w : W) :
  pure_tests e ->
  eval_hows e cs w = (map (fun c => fst (how_violated e c w)) cs, w).
Proof.
  intros [Hhow _]. induction cs as [|c cs IH]; simpl; [reflexivity|].
  specialize (Hhow c w). destruct (how_violated e c w) as [h w1].
  cbn [snd fst] in *. subst w1. now rewrite IH.
Qed.

Lemma existsb_measured (cs : list Cand) (w : W) :
  existsb truthy (map (fun c => fst (how_violated e c w)) cs)
  = existsb (violated e w) cs.
Proof.
  induction cs as [|c cs IH]; simpl; [reflexivity|].
  rewrite IH. reflexivity.
Qed.

Lemma existsb_same_elements (p : Cand -> bool) (a b : list Cand) :
  incl a b -> incl b a -> existsb p a = existsb p b.
Proof.
  intros Hab Hba.
  destruct (existsb p a) eqn:Ea, (existsb p b) eqn:Eb; try reflexivity.
  - apply existsb_exists in Ea. destruct Ea as (x & Hin & Hp).
    assert (existsb p b = true) by (apply existsb_exists; exists x; auto).
    congruence.
  - apply existsb_exists in Eb. destruct Eb as (x & Hin & Hp).
    assert (existsb p a = true) by (apply existsb_exists; exists x; auto).
    congruence.
Qed.

Lemma first_answer_pure (reorder : list Cand -> M St (list Cand)) (s : St) :
  pure_tests e -> reordering reorder ->
  fst (first_violated_separation_oracle e reorder s) =
  existsb (violated e (lp s)) (fst (get_candidates e (lp s))).
Proof.
  intros Hp Hre. rewrite first_answer.
  destruct (Hre (fst (get_candidates e (lp s))) (snd (t_get e s)))
    as (H1 & H2 & Hlp & _).
  assert (Hlp1 : lp (snd (t_get e s)) = lp s)
    by (rewrite t_get_run; cbn [snd lp]; apply (proj2 Hp)).
  rewrite Hlp, Hlp1, eval_hows_pure by exact Hp. cbn [fst].
  rewrite existsb_measured. symmetry.
  apply existsb_same_elements; assumption.
Qed.

(** X3: when the tests only read the LP, the three oracles give the same
    answer, under any comparator, any reordering and any generator: true
    exactly when a candidate of the LP is violated. *)
Theorem oracles_agree_on_pure_tests
    (cmp : option Meas -> option Meas -> bool)
    (reorder : list Cand -> M St (list Cand)) (s : St) :
  pure_tests e -> reordering reorder ->
  let answer := existsb (violated e (lp s)) (fst (get_candidates e (lp s))) in
  fst (max_violated_separation_oracle e cmp s) = answer /\
  fst (first_violated_separation_oracle e reorder s) = answer /\
  fst (random_violated_separation_oracle e s) = answer.
Proof.
  intros Hp Hre answer. split; [|split].
  - rewrite max_answer. unfold measures, answer.
    rewrite (proj2 Hp), eval_hows_pure by exact Hp. cbn [fst].
    now rewrite existsb_measured.
  - now apply first_answer_pure.
  - apply first_answer_pure; [exact Hp | apply random_rotate_reordering].
Qed.
End Answers.

(** ** What a returned OPTIMAL means *)
Section Feasibility.
Context {W G Cand Meas : Type}.
Variable e : env W G Cand Meas.
Local Notation "'St'" := (state W G Cand Meas) (only parsing).

Lemma existsb_false_all (p : Cand -> bool) (l : list Cand) :
  existsb p l = false -> forall c, In c l -> p c = false.
Proof.
  intros H c Hin. destruct (p c) eqn:Ep; [|reflexivity].
  rewrite <- H. symmetry. apply existsb_exists. now exists c.
Qed.

Lemma max_certifies (cmp : option Meas -> option Meas -> bool) :
  pure_tests e -> certifies e (max_violated_separation_oracle e cmp).
Proof.
  intros Hp s Hf. split.
  - revert Hf. rewrite max_oracle_run.
    destruct (select_max cmp _ None); cbn [fst snd lp]; [discriminate|].
    intros _. rewrite eval_hows_pure by exact Hp. cbn [snd]. apply (proj2 Hp).
  - apply existsb_false_all. rewrite <- Hf.
    rewrite max_answer. unfold measures.
    rewrite (proj2 Hp), eval_hows_pure by exact Hp. cbn [fst].
    now rewrite existsb_measured.
Qed.

Lemma first_certifies (reorder : list Cand -> M St (list Cand)) :
  pure_tests e -> reordering reorder ->
  certifies e (first_violated_separation_oracle e reorder).
Proof.
  intros Hp Hre s Hf. split.
  - destruct (Hre (fst (get_candidates e (lp s))) (snd (t_get e s)))
      as (_ & _ & Hlp & _).
    assert (Hlp1 : lp (snd (t_get e s)) = lp s)
      by (rewrite t_get_run; cbn [snd lp]; apply (proj2 Hp)).
    destruct (first_oracle_cases e reorder s)
      as [(pre & c & post & m & w1 & w2 & _ & _ & _ & _ & Hrun) | [_ Hrun]];
      rewrite Hrun in Hf |- *; cbn [fst snd lp] in *; [discriminate|].
    rewrite eval_hows_pure by exact Hp. cbn [snd]. now rewrite Hlp, Hlp1.
  - apply existsb_false_all. rewrite <- Hf. symmetry.
    now apply first_answer_pure.
Qed.

Lemma loop_certified (oracle : M St bool) (fuel : nat) (s s' : St) :
  certifies e oracle ->
  row_generation (t_try oracle) (t_solve e) fuel s = Some (OPTIMAL, s') ->
  forall c, In c (fst (get_candidates e (lp s'))) -> violated e (lp s') c = false.
Proof.
  intros Hc Hrun.
  destruct (loop_end _ _ _ _ Hrun) as (s0 & _ & Hf & ->).
  destruct (Hc _ Hf) as [Hlp Hall].
  rewrite t_try_run. cbn [snd lp]. rewrite Hlp. exact Hall.
Qed.

(** X4: when the tests only read the LP and [row_generation] returns OPTIMAL,
    run with the max-violated oracle, with the first-violated oracle under any
    reordering or with the random-violated oracle, no candidate of the returned
    LP is violated in it: the optimum returned is feasible for the full
    problem. *)
Theorem row_generation_optimum_feasible :
  pure_tests e ->
  (forall (cmp : option Meas -> option Meas -> bool) (fuel : nat) (s s' : St),
      row_generation (t_try (max_violated_separation_oracle e cmp)) (t_solve e)
        fuel s = Some (OPTIMAL, s') ->
      forall c, In c (fst (get_candidates e (lp s'))) ->
                fst (how_violated e c (lp s')) = None) /\
  (forall (reorder : list Cand -> M St (list Cand)) (fuel : nat) (s s' : St),
      reordering reorder ->
      row_generation (t_try (first_violated_separation_oracle e reorder)) (t_solve e)
        fuel s = Some (OPTIMAL, s') ->
      forall c, In c (fst (get_candidates e (lp s'))) ->
                fst (how_violated e c (lp s')) = None) /\
  (forall (fuel : nat) (s s' : St),
      row_generation (t_try (random_violated_separation_oracle e)) (t_solve e)
        fuel s = Some (OPTIMAL, s') ->
      forall c, In c (fst (get_candidates e (lp s'))) ->
                fst (how_violated e c (lp s')) = None).
Proof.
  intros Hp.
  assert (Hnone : forall w c, violated e w c = false -> fst (how_violated e c w) = None).
  { intros w c. unfold violated. now destruct (fst (how_violated e c w)). }
  split; [|split].
  - intros cmp fuel s s' Hrun c Hin. apply Hnone.
    eapply loop_certified; eauto using max_certifies.
  - intros reorder fuel s s' Hre Hrun c Hin. apply Hnone.
    eapply loop_certified; eauto using first_certifies.
  - intros fuel s s' Hrun c Hin. apply Hnone.
    eapply loop_certified; [|exact Hrun|exact Hin].
    apply first_certifies; [exact Hp | apply random_rotate_reordering].
Qed.
End Feasibility.

(** ** What an oracle call records *)
Section Records.
Context {W G Cand Meas : Type}.
Variable e : env W G Cand Meas.
Local Notation "'St'" := (state W G Cand Meas) (only parsing).

Lemma in_how_events (its : list (iterator Cand)) (hs : list (option Meas))
    (h : option Meas) (it : iterator Cand) :
  In (h, it) (combine hs its) ->
  In (EvHow (deref it) h) (how_events (map deref its) hs).
Proof.
  revert hs. induction its as [|i its IH]; intros [|h0 hs] Hin; simpl in Hin;
    try contradiction.
  destruct Hin as [Heq | Hin].
  - inversion Heq; subst. now left.
  - right. now apply IH.
Qed.

Lemma how_events_only_how (cs : list Cand) (hs : list (option Meas))
    (ev : event Cand Meas) :
  In ev (how_events cs hs) -> exists c h, ev = EvHow c h.
Proof.
  unfold how_events. rewrite in_map_iff. intros ([c h] & <- & _). eauto.
Qed.

Lemma count_how_events_other (p : event Cand Meas -> bool)
    (cs : list Cand) (hs : list (option Meas)) :
  (forall c h, p (EvHow c h) = false) -> count p (how_events cs hs) = 0.
Proof.
  intros Hp. apply count_zero. intros ev Hin.
  apply how_events_only_how in Hin. destruct Hin as (c & h & ->). apply Hp.
Qed.

Lemma count_not_violated_other (p : event Cand Meas -> bool) (cs : list Cand) :
  (forall c h, p (EvHow c h) = false) ->
  count p (@not_violated_events Cand Meas cs) = 0.
Proof.
  intros Hp. apply count_zero. intros ev Hin.
  unfold not_violated_events in Hin. apply in_map_iff in Hin.
  destruct Hin as (c & <- & _). apply Hp.
Qed.

(** X5: an oracle that answers true has added exactly one row, as the last
    thing it did, and that row is a candidate that [get_candidates] produced
    in this call and that [how_violated] measured as violated in this call.
    This holds for the max-violated oracle and for the first-violated oracle
    under any reordering. *)
Theorem oracle_commits_measured_candidate :
  (forall (cmp : option Meas -> option Meas -> bool) (s : St),
      fst (max_violated_separation_oracle e cmp s) = true ->
      exists c m evs,
        trace (snd (max_violated_separation_oracle e cmp s))
        = trace s ++ evs ++ [EvAdd c] /\
        count is_add evs = 0 /\
        In (EvHow c (Some m)) evs /\
        In c (fst (get_candidates e (lp s)))) /\
  (forall (reorder : list Cand -> M St (list Cand)) (s : St),
      reordering reorder ->
      fst (first_violated_separation_oracle e reorder s) = true ->
      exists c m evs,
        trace (snd (first_violated_separation_oracle e reorder s))
        = trace s ++ evs ++ [EvAdd c] /\
        count is_add evs = 0 /\
        In (EvHow c (Some m)) evs /\
        In c (fst (get_candidates e (lp s)))).
Proof.
  split.
  - intros cmp s. rewrite max_oracle_run.
    set (cands := fst (get_candidates e (lp s))).
    set (hs := fst (eval_hows e cands (snd (get_candidates e (lp s))))).
    destruct (select_max cmp _ None) as [[h it]|] eqn:Es; cbn [fst snd trace];
      [intros _ | discriminate].
    apply select_max_in in Es. destruct Es as [Hd | [Hin Ht]]; [discriminate|].
    cbn [fst] in Ht. destruct h as [m|]; [|discriminate].
    exists (deref it), m, (EvGet cands :: how_events cands hs).
    split; [reflexivity|]. split.
    { change (EvGet cands :: how_events cands hs)
        with ([EvGet cands] ++ how_events cands hs).
      rewrite count_app, count_how_events_other by reflexivity. reflexivity. }
    split.
    + right. rewrite <- (map_deref_counting_range cands) at 1.
      now apply in_how_events.
    + apply in_combine_r in Hin.
      rewrite <- (map_deref_counting_range cands). now apply in_map.
  - intros reorder s Hre Ht.
    destruct (Hre (fst (get_candidates e (lp s))) (snd (t_get e s)))
      as (_ & Hincl & _ & revs & Htr & Hrevs).
    assert (Hget : trace (snd (t_get e s))
                   = trace s ++ [EvGet (fst (get_candidates e (lp s)))])
      by (rewrite t_get_run; reflexivity).
    rewrite Hget in Htr.
    destruct (first_oracle_cases e reorder s)
      as [(pre & c & post & m & w1 & w2 & Hsplit & _ & _ & _ & Hrun) | [_ Hrun]];
      rewrite Hrun in Ht |- *; cbn [fst snd trace] in *; [|discriminate].
    exists c, m,
      (EvGet (fst (get_candidates e (lp s))) :: revs
         ++ not_violated_events pre ++ [EvHow c (Some m)]).
    split.
    { rewrite Htr. rewrite <- !app_assoc. cbn [app]. rewrite <- !app_assoc.
      reflexivity. }
    split.
    { change (EvGet ?x :: ?l) with ([EvGet x] ++ l).
      rewrite !count_app.
      rewrite (count_zero is_add revs) by (intros ev Hev; now apply Hrevs in Hev).
      rewrite count_not_violated_other by reflexivity. reflexivity. }
    split.
    + right. apply in_or_app. right. apply in_or_app. right. now left.
    + apply Hincl. rewrite Hsplit. apply in_or_app. right. now left.
Qed.

Lemma length_rotate (rng : list Cand) (n : nat) :
  length (rotate rng n) = length rng.
Proof.
  unfold rotate. rewrite length_app, Nat.add_comm, <- length_app.
  now rewrite firstn_skipn.
Qed.

Lemma first_how_count (reorder : list Cand -> M St (list Cand)) (s : St) :
  reordering reorder ->
  let cands := fst (get_candidates e (lp s)) in
  let reordered := fst (reorder cands (snd (t_get e s))) in
  let r := first_violated_separation_oracle e reorder s in
  count is_how (trace (snd r)) <= count is_how (trace s) + length reordered /\
  (fst r = false ->
   count is_how (trace (snd r)) = count is_how (trace s) + length reordered).
Proof.
  intros Hre cands reordered r. subst r.
  destruct (Hre cands (snd (t_get e s))) as (_ & _ & _ & revs & Htr & Hrevs).
  assert (Hget : trace (snd (t_get e s)) = trace s ++ [EvGet cands])
    by (rewrite t_get_run; reflexivity).
  rewrite Hget in Htr.
  assert (Hr0 : count is_how revs = 0)
    by (apply count_zero; intros ev Hev; now apply Hrevs in Hev).
  destruct (first_oracle_cases e reorder s)
    as [(pre & c & post & m & w1 & w2 & Hsplit & _ & _ & _ & Hrun) | [_ Hrun]];
    rewrite Hrun; cbn [fst snd trace]; fold cands; rewrite Htr, !count_app, Hr0.
  - destruct (count_not_violated_events (Meas := Meas) pre) as [Hpre _].
    fold cands in Hsplit. fold reordered in Hsplit.
    rewrite Hpre, Hsplit, length_app. cbn. split; [lia | discriminate].
  - destruct (count_not_violated_events (Meas := Meas) reordered) as [Hall _].
    fold reordered. rewrite Hall. cbn. split; [lia | intros _; lia].
Qed.

(** X6: the max-violated oracle calls [how_violated] once per candidate;
    the first-violated oracle with the default ordering and the
    random-violated oracle never call it more often than that, and exactly
    that often when they answer false. *)
Theorem first_violated_measures_no_more
    (cmp : option Meas -> option Meas -> bool) (s : St) :
  let n := length (fst (get_candidates e (lp s))) in
  let calls (r : bool * St) := count is_how (trace (snd r)) in
  calls (max_violated_separation_oracle e cmp s) = count is_how (trace s) + n /\
  calls (first_violated_separation_oracle e identity_functor s)
    <= calls (max_violated_separation_oracle e cmp s) /\
  calls (random_violated_separation_oracle e s)
    <= calls (max_violated_separation_oracle e cmp s) /\
  (fst (first_violated_separation_oracle e identity_functor s) = false ->
   calls (first_violated_separation_oracle e identity_functor s)
   = calls (max_violated_separation_oracle e cmp s)) /\
  (fst (random_violated_separation_oracle e s) = false ->
   calls (random_violated_separation_oracle e s)
   = calls (max_violated_separation_oracle e cmp s)).
Proof.
  intros n calls.
  assert (Hid : count is_how (trace (snd (first_violated_separation_oracle e
                                            identity_functor s)))
                <= count is_how (trace s) + n /\
                (fst (first_violated_separation_oracle e identity_functor s) = false ->
                 count is_how (trace (snd (first_violated_separation_oracle e
                                             identity_functor s)))
                 = count is_how (trace s) + n)).
  { exact (first_how_count s (identity_reordering (W := W) (G := G) (Cand := Cand)
                                (Meas := Meas))). }
  destruct Hid as [Hi Hi'].
  destruct (first_how_count s (random_rotate_reordering e)) as [Hr Hr'].
  rewrite random_rotate_run in Hr, Hr'. cbn [fst] in Hr, Hr'.
  rewrite length_rotate in Hr, Hr'. fold n in Hi, Hi', Hr, Hr'.
  assert (Hmax : count is_how (trace (snd (max_violated_separation_oracle e cmp s)))
                 = count is_how (trace s) + n).
  { destruct (max_oracle_trace e cmp s) as [[_ Htr] | (_ & hs & c & Hl & Htr)];
      rewrite Htr; change (EvGet ?x :: ?l) with ([EvGet x] ++ l);
      rewrite !count_app.
    - destruct (count_not_violated_events (Meas := Meas)
                  (fst (get_candidates e (lp s)))) as [-> _]. cbn. fold n. lia.
    - destruct (count_how_events _ hs Hl) as [-> _]. cbn. fold n. lia. }
  unfold calls. rewrite Hmax.
  unfold random_violated_separation_oracle in *.
  split; [reflexivity|]. split; [exact Hi|]. split; [exact Hr|].
  split; [exact Hi' | exact Hr'].
Qed.
End Records.

(** ** Rows added by a run of the loop *)
Section Rows.
Context {W G Cand Meas : Type}.
Variable e : env W G Cand Meas.
Local Notation "'St'" := (state W G Cand Meas) (only parsing).

Lemma max_one_row (cmp : option Meas -> option Meas -> bool) :
  one_row_per_answer (max_violated_separation_oracle e cmp).
Proof.
  intros s.
  destruct (max_oracle_trace e cmp s) as [[-> Htr] | (-> & hs & c & Hl & Htr)];
    (eexists; split; [exact Htr|]);
    change (EvGet ?x :: ?l) with ([EvGet x] ++ l); rewrite !count_app.
  - rewrite !count_not_violated_other by reflexivity. split; reflexivity.
  - rewrite !count_how_events_other by reflexivity. split; reflexivity.
Qed.

Lemma first_one_row (reorder : list Cand -> M St (list Cand)) :
  reordering reorder ->
  one_row_per_answer (first_violated_separation_oracle e reorder).
Proof.
  intros Hre s.
  destruct (first_oracle_trace e s Hre) as (revs & pre & tail & Htr & Hrevs & Hcase).
  eexists. split; [exact Htr|].
  change (EvGet ?x :: ?l) with ([EvGet x] ++ l). rewrite !count_app.
  rewrite (count_zero is_add revs) by (intros ev Hev; now apply Hrevs in Hev).
  rewrite (count_zero is_solve revs).
  2:{ intros ev Hev. apply Hrevs in Hev. destruct Hev as (_ & _ & Hl).
      destruct ev; simpl in *; congruence. }
  rewrite !count_not_violated_other by reflexivity.
  destruct Hcase as [(-> & -> & _) | (-> & c & m & ->)]; split; reflexivity.
Qed.

Lemma loop_rows (oracle : M St bool) :
  one_row_per_answer oracle ->
  forall fuel (s : St) res s',
    row_generation (t_try oracle) (t_solve e) fuel s = Some (res, s') ->
    exists k,
      count is_solve (trace s') = count is_solve (trace s) + Datatypes.S k /\
      count is_add (trace s') = count is_add (trace s) + k.
Proof.
  intros Ho. induction fuel as [|fuel IH]; intros s res s' H; [discriminate|].
  rewrite row_generation_step in H. cbv zeta in H.
  assert (Hs1 : count is_solve (trace (snd (t_solve e s))) = count is_solve (trace s) + 1
                /\ count is_add (trace (snd (t_solve e s))) = count is_add (trace s)).
  { rewrite t_solve_run. cbn [snd trace]. rewrite !count_app. cbn. lia. }
  destruct Hs1 as [Hs1 Ha1].
  destruct (problem_type_eqb _ OPTIMAL).
  - destruct (Ho (snd (t_solve e s))) as (evs & Htr & Hadd & Hsol).
    assert (Ht : count is_solve (trace (snd (t_try oracle (snd (t_solve e s)))))
                 = count is_solve (trace s) + 1 /\
                 count is_add (trace (snd (t_try oracle (snd (t_solve e s)))))
                 = count is_add (trace s)
                   + if fst (oracle (snd (t_solve e s))) then 1 else 0).
    { rewrite t_try_run. cbn [snd trace]. rewrite Htr, !count_app, Hadd, Hsol.
      cbn. lia. }
    destruct Ht as [Ht1 Ht2].
    destruct (fst (oracle (snd (t_solve e s)))).
    + apply IH in H. destruct H as (k & Hk1 & Hk2).
      exists (Datatypes.S k). lia.
    + inversion H; subst res s'. exists 0. lia.
  - inversion H; subst res s'. exists 0. lia.
Qed.

(** X7: in a run of [row_generation] that returns, with any of the three
    oracles, the number of rows added is one less than the number of solves:
    every row added is followed by a new solve before the loop returns. *)
Theorem row_generation_rows_and_solves :
  (forall (cmp : option Meas -> option Meas -> bool) fuel (s : St) res s',
      row_generation (t_try (max_violated_separation_oracle e cmp)) (t_solve e)
        fuel s = Some (res, s') ->
      exists k,
        count is_solve (trace s') = count is_solve (trace s) + Datatypes.S k /\
        count is_add (trace s') = count is_add (trace s) + k) /\
  (forall (reorder : list Cand -> M St (list Cand)) fuel (s : St) res s',
      reordering reorder ->
      row_generation (t_try (first_violated_separation_oracle e reorder)) (t_solve e)
        fuel s = Some (res, s') ->
      exists k,
        count is_solve (trace s') = count is_solve (trace s) + Datatypes.S k /\
        count is_add (trace s') = count is_add (trace s) + k) /\
  (forall fuel (s : St) res s',
      row_generation (t_try (random_violated_separation_oracle e)) (t_solve e)
        fuel s = Some (res, s') ->
      exists k,
        count is_solve (trace s') = count is_solve (trace s) + Datatypes.S k /\
        count is_add (trace s') = count is_add (trace s) + k).
Proof.
  split; [|split].
  - intros cmp fuel s res s' H. eapply loop_rows; [apply max_one_row | exact H].
  - intros reorder fuel s res s' Hre H.
    eapply loop_rows; [now apply first_one_row | exact H].
  - intros fuel s res s' H.
    eapply loop_rows; [|exact H].
    apply first_one_row. apply random_rotate_reordering.
Qed.
End Rows.

(** ** The default comparator *)
Section DefaultComparator.
Context {W G Cand Meas : Type}.
Variable e : env W G Cand Meas.
Variable lt : Meas -> Meas -> bool.
Local Notation "'St'" := (state W G Cand Meas) (only parsing).

Lemma less_lifts : strict_weak_lt lt -> strict_weak_order (less lt).
Proof.
  intros (Hirr & Htrans & Hneg). split; [|split].
  - intros [a|]; simpl; [apply Hirr | reflexivity].
  - intros [a|] [b|] [c|]; simpl; try congruence. apply Htrans.
  - intros [a|] [b|] [c|]; simpl; try tauto; try (intros; discriminate).
    apply Hneg.
Qed.

(** X9: with the default comparator over measures whose less-than is a
    strict weak ordering, a max-violated oracle that answers true has added
    the candidate with the greatest measure: every violation measured before
    it is strictly less and no violation measured after it is greater. *)
Theorem default_comparator_commits_maximum (s : St) :
  strict_weak_lt lt ->
  fst (max_violated_separation_oracle e (less lt) s) = true ->
  exists cs1 c cs2 hs1 m hs2,
    fst (get_candidates e (lp s)) = cs1 ++ c :: cs2 /\
    measures e s = hs1 ++ Some m :: hs2 /\
    length hs1 = length cs1 /\
    Forall (fun h => forall m', h = Some m' -> lt m' m = true /\ lt m m' = false) hs1 /\
    Forall (fun h => forall m', h = Some m' -> lt m m' = false) hs2 /\
    exists evs,
      trace (snd (max_violated_separation_oracle e (less lt) s))
      = trace s ++ evs ++ [EvAdd c].
Proof.
  intros Hlt Ht.
  destruct (max_oracle_greatest e s (less_lifts Hlt) Ht)
    as (cs1 & c & cs2 & hs1 & b & hs2 & Hc & Hh & Hl & (Hb & H1 & H2) & Hrun).
  destruct b as [m|]; [|discriminate].
  exists cs1, c, cs2, hs1, m, hs2.
  split; [exact Hc|]. split; [exact Hh|]. split; [exact Hl|]. split; [|split].
  - eapply Forall_impl; [|exact H1]. cbv beta. intros h Hh' m' ->.
    exact (Hh' eq_refl).
  - eapply Forall_impl; [|exact H2]. cbv beta. intros h Hh' m' ->.
    exact (Hh' eq_refl).
  - rewrite Hrun. cbn [snd trace]. eexists.
    change (EvGet ?x :: ?l ++ ?t) with ((EvGet x :: l) ++ t). reflexivity.
Qed.
End DefaultComparator.

(** ** Rounds and rows under monotone tests *)
Section Progress.
Context {W G Cand Meas : Type}.
Variable e : env W G Cand Meas.
Local Notation "'St'" := (state W G Cand Meas) (only parsing).

(** X10: under the hypotheses of the termination bound, the loop returns
    within (number of candidates of the pool violated at the start) + 1
    iterations, with any of the three oracles. *)
Theorem row_generation_rounds_bound (pool : list Cand) :
  monotone e -> finite_candidates e pool -> add_satisfies e ->
  (forall (cmp : option Meas -> option Meas -> bool) (s : St),
      exists res s',
        row_generation (t_try (max_violated_separation_oracle e cmp)) (t_solve e)
          (violations e pool (lp s) + 1) s = Some (res, s')) /\
  (forall (reorder : list Cand -> M St (list Cand)) (s : St),
      reordering reorder ->
      exists res s',
        row_generation (t_try (first_violated_separation_oracle e reorder)) (t_solve e)
          (violations e pool (lp s) + 1) s = Some (res, s')) /\
  (forall s : St,
      exists res s',
        row_generation (t_try (random_violated_separation_oracle e)) (t_solve e)
          (violations e pool (lp s) + 1) s = Some (res, s')).
Proof.
  intros Hm Hfin Hsat.
  split; [|split].
  - intros cmp s. rewrite Nat.add_1_r.
    apply loop_terminates with (pool := pool); auto using max_progresses.
  - intros reorder s Hre. rewrite Nat.add_1_r.
    apply loop_terminates with (pool := pool); auto using first_progresses.
  - intros s. rewrite Nat.add_1_r.
    apply loop_terminates with (pool := pool); auto.
    apply first_progresses; auto. apply random_rotate_reordering.
Qed.

Lemma added_rows_app (a b : list (event Cand Meas)) :
  added_rows (a ++ b) = added_rows a ++ added_rows b.
Proof.
  induction a as [|ev a IH]; simpl; [reflexivity|].
  destruct ev; simpl; rewrite IH; reflexivity.
Qed.

Lemma added_rows_none (l : list (event Cand Meas)) :
  (forall ev, In ev l -> is_add ev = false) -> added_rows l = [].
Proof.
  induction l as [|ev l IH]; intros H; simpl; [reflexivity|].
  pose proof (H ev (or_introl eq_refl)) as Hev.
  destruct ev; simpl in Hev; try discriminate; apply IH;
    intros ev' Hin; apply H; now right.
Qed.

Lemma added_rows_how_events (cs : list Cand) (hs : list (option Meas)) :
  added_rows (how_events cs hs) = [].
Proof.
  apply added_rows_none. intros ev Hin.
  apply how_events_only_how in Hin. now destruct Hin as (c & h & ->).
Qed.

Lemma added_rows_not_violated (cs : list Cand) :
  added_rows (@not_violated_events Cand Meas cs) = [].
Proof.
  apply added_rows_none. intros ev Hin. unfold not_violated_events in Hin.
  apply in_map_iff in Hin. now destruct Hin as (c & <- & _).
Qed.

Lemma max_commits_violated (cmp : option Meas -> option Meas -> bool) :
  monotone e -> add_satisfies e ->
  commits_violated e (max_violated_separation_oracle e cmp).
Proof.
  intros Hm Hsat s. pose proof Hm as (_ & Hget & _ & Hadd).
  rewrite max_oracle_run.
  set (cands := fst (get_candidates e (lp s))).
  set (w1 := snd (get_candidates e (lp s))).
  assert (Hrun : no_new_violation e (lp s) (snd (eval_hows e cands w1))).
  { eapply no_new_violation_trans; [apply Hget | now apply eval_hows_no_new]. }
  destruct (select_max cmp _ None) as [[h it]|] eqn:Es; cbn [fst snd lp trace].
  - split.
    { eapply no_new_violation_trans; [exact Hrun | apply Hadd]. }
    eexists. split; [reflexivity|]. exists (deref it).
    split.
    { change (EvGet ?x :: ?l ++ ?t) with ([EvGet x] ++ l ++ t).
      rewrite !added_rows_app, added_rows_how_events. reflexivity. }
    split; [|apply Hsat].
    apply select_max_in in Es. destruct Es as [Hd | [Hin Ht]]; [discriminate|].
    cbn [fst] in Ht.
    rewrite <- (map_deref_counting_range cands) in Hin at 1.
    destruct (eval_hows_measured _ _ _ _ Hm Hin) as (wk & Hnk & Hk).
    apply Hget. apply Hnk. unfold violated. now rewrite Hk.
  - split; [exact Hrun|].
    eexists. split; [reflexivity|].
    change (EvGet ?x :: ?l) with ([EvGet x] ++ l).
    rewrite added_rows_app, added_rows_how_events. reflexivity.
Qed.

Lemma first_commits_violated (reorder : list Cand -> M St (list Cand)) :
  monotone e -> add_satisfies e -> reordering reorder ->
  commits_violated e (first_violated_separation_oracle e reorder).
Proof.
  intros Hm Hsat Hre s. pose proof Hm as (_ & Hget & Hhow & Hadd).
  destruct (Hre (fst (get_candidates e (lp s))) (snd (t_get e s)))
    as (_ & _ & Hlp & revs & Htr & Hrevs).
  assert (Hlp1 : lp (snd (t_get e s)) = snd (get_candidates e (lp s)))
    by (rewrite t_get_run; reflexivity).
  assert (Hget1 : trace (snd (t_get e s))
                  = trace s ++ [EvGet (fst (get_candidates e (lp s)))])
    by (rewrite t_get_run; reflexivity).
  rewrite Hlp1 in Hlp. rewrite Hget1 in Htr.
  assert (Hr0 : added_rows revs = [])
    by (apply added_rows_none; intros ev Hev; now apply Hrevs in Hev).
  destruct (first_oracle_cases e reorder s)
    as [(pre & c & post & m & w1 & w2 & _ & _ & Hw & Hh & Hrun) | [_ Hrun]];
    rewrite Hrun; cbn [fst snd lp trace]; rewrite Hlp in *; rewrite Htr.
  - assert (H1 : no_new_violation e (lp s) w1).
    { rewrite <- Hw. eapply no_new_violation_trans;
        [apply Hget | now apply eval_hows_no_new]. }
    split.
    { eapply no_new_violation_trans; [exact H1|].
      eapply no_new_violation_trans; [|apply Hadd].
      specialize (Hhow c w1). now rewrite Hh in Hhow. }
    eexists. split; [rewrite <- !app_assoc; reflexivity|].
    exists c. split.
    { rewrite !added_rows_app, Hr0, added_rows_not_violated. reflexivity. }
    split; [|apply Hsat].
    apply H1. unfold violated. now rewrite Hh.
  - split.
    { eapply no_new_violation_trans; [apply Hget | now apply eval_hows_no_new]. }
    eexists. split; [rewrite <- !app_assoc; reflexivity|].
    rewrite !added_rows_app, Hr0, added_rows_not_violated. reflexivity.
Qed.

Lemma loop_rows_distinct (oracle : M St bool) :
  monotone e -> commits_violated e oracle ->
  forall fuel (s : St) (acc : list Cand) res s',
    NoDup acc ->
    (forall c, In c acc -> violated e (lp s) c = false) ->
    row_generation (t_try oracle) (t_solve e) fuel s = Some (res, s') ->
    exists evs,
      trace s' = trace s ++ evs /\
      NoDup (acc ++ added_rows evs) /\
      forall c, In c (acc ++ added_rows evs) -> violated e (lp s') c = false.
Proof.
  intros (Hsolve & _) Hc.
  assert (Hkeep : forall w w' (l : list Cand),
             no_new_violation e w w' ->
             (forall c, In c l -> violated e w c = false) ->
             forall c, In c l -> violated e w' c = false).
  { intros w w' l Hn Hl c Hin. specialize (Hl c Hin).
    destruct (violated e w' c) eqn:Ev; [|reflexivity].
    apply Hn in Ev. congruence. }
  induction fuel as [|fuel IH]; intros s acc res s' Hnd Hacc H; [discriminate|].
  rewrite row_generation_step in H. cbv zeta in H.
  assert (Hs1 : lp (snd (t_solve e s)) = snd (solve_lp e (lp s)) /\
                trace (snd (t_solve e s))
                = trace s ++ [EvSolve (fst (solve_lp e (lp s)))])
    by (rewrite t_solve_run; split; reflexivity).
  destruct Hs1 as [Hlp1 Htr1].
  assert (Hacc1 : forall c, In c acc -> violated e (lp (snd (t_solve e s))) c = false).
  { rewrite Hlp1. eapply Hkeep; [apply Hsolve | exact Hacc]. }
  destruct (problem_type_eqb _ OPTIMAL).
  - destruct (Hc (snd (t_solve e s))) as (Hn & evs & Htr & Hcase).
    assert (Ht : lp (snd (t_try oracle (snd (t_solve e s))))
                 = lp (snd (oracle (snd (t_solve e s)))) /\
                 trace (snd (t_try oracle (snd (t_solve e s))))
                 = trace s ++ [EvSolve (fst (solve_lp e (lp s)))] ++ evs
                     ++ [EvTry (fst (oracle (snd (t_solve e s))))]).
    { rewrite t_try_run. cbn [snd lp trace]. rewrite Htr, Htr1.
      split; [reflexivity | now rewrite <- !app_assoc]. }
    destruct Ht as [Hlp2 Htr2].
    destruct (fst (oracle (snd (t_solve e s)))) eqn:Eb.
    + destruct Hcase as (c & Hrows & Hv & Hv').
      apply (IH _ (acc ++ [c])) in H.
      * destruct H as (evs' & Htr' & Hnd' & Hall').
        eexists. split; [rewrite Htr', Htr2, <- !app_assoc; reflexivity|].
        rewrite !added_rows_app, Hrows. cbn [added_rows app].
        rewrite <- app_assoc in Hnd', Hall'. cbn [app] in Hnd', Hall'.
        split; [exact Hnd' | exact Hall'].
      * apply NoDup_app; [exact Hnd | repeat constructor; intros [] |].
        intros x Hx [Heq | []]. subst x. rewrite (Hacc1 c Hx) in Hv. discriminate.
      * rewrite Hlp2. intros x Hx. apply in_app_or in Hx.
        destruct Hx as [Hx | [Heq | []]]; [|subst x; exact Hv'].
        eapply Hkeep; [exact Hn | exact Hacc1 | exact Hx].
    + inversion H; subst res s'. eexists. split; [exact Htr2|].
      rewrite !added_rows_app, Hcase. cbn [added_rows app]. rewrite app_nil_r.
      split; [exact Hnd|]. rewrite Hlp2.
      eapply Hkeep; [exact Hn | exact Hacc1].
  - inversion H; subst res s'. eexists. split; [exact Htr1|].
    cbn [added_rows]. rewrite app_nil_r. split; [exact Hnd | exact Hacc1].
Qed.

(** X11: when no callable makes a satisfied candidate violated and an added
    candidate is satisfied, a run of [row_generation] that returns, with any
    of the three oracles, has added no row twice, and every row it added is
    satisfied in the LP it returns. *)
Theorem row_generation_rows_distinct :
  monotone e -> add_satisfies e ->
  (forall (cmp : option Meas -> option Meas -> bool) fuel (s : St) res s',
      row_generation (t_try (max_violated_separation_oracle e cmp)) (t_solve e)
        fuel s = Some (res, s') ->
      exists evs,
        trace s' = trace s ++ evs /\ NoDup (added_rows evs) /\
        forall c, In c (added_rows evs) -> violated e (lp s') c = false) /\
  (forall (reorder : list Cand -> M St (list Cand)) fuel (s : St) res s',
      reordering reorder ->
      row_generation (t_try (first_violated_separation_oracle e reorder)) (t_solve e)
        fuel s = Some (res, s') ->
      exists evs,
        trace s' = trace s ++ evs /\ NoDup (added_rows evs) /\
        forall c, In c (added_rows evs) -> violated e (lp s') c = false) /\
  (forall fuel (s : St) res s',
      row_generation (t_try (random_violated_separation_oracle e)) (t_solve e)
        fuel s = Some (res, s') ->
      exists evs,
        trace s' = trace s ++ evs /\ NoDup (added_rows evs) /\
        forall c, In c (added_rows evs) -> violated e (lp s') c = false).
Proof.
  intros Hm Hsat.
  assert (Hgen : forall oracle : M St bool,
             commits_violated e oracle ->
             forall fuel (s : St) res s',
               row_generation (t_try oracle) (t_solve e) fuel s = Some (res, s') ->
               exists evs,
                 trace s' = trace s ++ evs /\ NoDup (added_rows evs) /\
                 forall c, In c (added_rows evs) -> violated e (lp s') c = false).
  { intros oracle Hc fuel s res s' H.
    apply (loop_rows_distinct Hm Hc fuel s (acc := []) (NoDup_nil _)) in H.
    - exact H.
    - intros c []. }
  split; [|split].
  - intros cmp. apply Hgen. now apply max_commits_violated.
  - intros reorder fuel s res s' Hre. apply Hgen. now apply first_commits_violated.
  - apply Hgen. apply first_commits_violated; auto. apply random_rotate_reordering.
Qed.
End Progress.

(** ** The further properties on concrete LPs *)

Lemma three_rows_pure : pure_tests three_rows_env.
Proof. split; intros; reflexivity. Qed.

Lemma three_rows_run :
  row_generation
    (t_try (first_violated_separation_oracle three_rows_env identity_functor))
    (t_solve three_rows_env) 4 (initial [100; 101] 1%N)
  = Some (OPTIMAL, three_rows_final).
Proof. reflexivity. Qed.

(** With the row 0 added and the rows 1 and 2 still missing, the three
    oracles all answer true. *)
Lemma oracles_agree_on_pure_tests_witness :
  fst (max_violated_separation_oracle three_rows_env (less Nat.ltb)
         (initial [100; 101; 0] 1%N)) = true /\
  fst (first_violated_separation_oracle three_rows_env identity_functor
         (initial [100; 101; 0] 1%N)) = true /\
  fst (random_violated_separation_oracle three_rows_env
         (initial [100; 101; 0] 1%N)) = true.
Proof.
  exact (@oracles_agree_on_pure_tests (list nat) N nat nat three_rows_env
           (less Nat.ltb) identity_functor (initial [100; 101; 0] 1%N)
           three_rows_pure (@identity_reordering (list nat) N nat nat)).
Defined.

(** The LP returned by the loop on [three_rows_env] violates no candidate. *)
Lemma row_generation_optimum_feasible_witness :
  fst (how_violated three_rows_env 0 [100; 101; 0; 1; 2]) = None /\
  fst (how_violated three_rows_env 1 [100; 101; 0; 1; 2]) = None /\
  fst (how_violated three_rows_env 2 [100; 101; 0; 1; 2]) = None.
Proof.
  pose proof (proj1 (proj2 (@row_generation_optimum_feasible (list nat) N nat nat
                              three_rows_env three_rows_pure))
                identity_functor 4 (initial [100; 101] 1%N) three_rows_final
                (@identity_reordering (list nat) N nat nat) three_rows_run) as H.
  repeat split; apply H; simpl; tauto.
Defined.

(** On the measures 3, 7, 2, 7 the row added is a candidate measured as
    violated. *)
Lemma oracle_commits_measured_candidate_witness :
  exists c m evs,
    trace (snd (max_violated_separation_oracle measures_env (less Nat.ltb)
                  (initial [] 1%N))) = [] ++ evs ++ [EvAdd c] /\
    count is_add evs = 0 /\
    In (EvHow c (Some m)) evs /\
    In c [0; 1; 2; 3].
Proof.
  apply (proj1 (@oracle_commits_measured_candidate (list nat) N nat nat measures_env)
           (less Nat.ltb) (initial [] 1%N)).
  reflexivity.
Defined.

(** On ok, ok, violated, violated the first-violated oracle makes no more
    measurements than the max-violated oracle. *)
Lemma first_violated_measures_no_more_witness :
  count is_how
    (trace (snd (first_violated_separation_oracle short_circuit_env identity_functor
                   (initial [] 1%N))))
  <= count is_how
       (trace (snd (max_violated_separation_oracle short_circuit_env (less Nat.ltb)
                      (initial [] 1%N)))).
Proof.
  destruct (@first_violated_measures_no_more (list nat) N nat nat short_circuit_env
              (less Nat.ltb) (initial [] 1%N)) as (_ & H & _).
  exact H.
Defined.

(** The run on [three_rows_env]: one more solve than rows added. *)
Lemma row_generation_rows_and_solves_witness :
  exists k,
    count is_solve (trace three_rows_final) = 0 + Datatypes.S k /\
    count is_add (trace three_rows_final) = 0 + k.
Proof.
  exact (proj1 (proj2 (@row_generation_rows_and_solves (list nat) N nat nat
                         three_rows_env))
           identity_functor 4 (initial [100; 101] 1%N) OPTIMAL three_rows_final
           (@identity_reordering (list nat) N nat nat) three_rows_run).
Defined.

Lemma ltb_strict_weak : strict_weak_lt Nat.ltb.
Proof.
  split; [|split].
  - intros a. apply Nat.ltb_irrefl.
  - intros a b c. rewrite !Nat.ltb_lt. lia.
  - intros a b c. rewrite !Nat.ltb_lt. lia.
Qed.

(** The measures 3, 7, 2, 7 under the default comparator on the naturals. *)
Lemma default_comparator_commits_maximum_witness :
  exists cs1 c cs2 hs1 m hs2,
    [0; 1; 2; 3] = cs1 ++ c :: cs2 /\
    [Some 3; Some 7; Some 2; Some 7] = hs1 ++ Some m :: hs2 /\
    length hs1 = length cs1 /\
    Forall (fun h => forall m', h = Some m' ->
                       (m' <? m) = true /\ (m <? m') = false) hs1 /\
    Forall (fun h => forall m', h = Some m' -> (m <? m') = false) hs2 /\
    exists evs,
      trace (snd (max_violated_separation_oracle measures_env (less Nat.ltb)
                    (initial [] 1%N))) = [] ++ evs ++ [EvAdd c].
Proof.
  apply (@default_comparator_commits_maximum (list nat) N nat nat measures_env
           Nat.ltb (initial [] 1%N)).
  - exact ltb_strict_weak.
  - reflexivity.
Defined.

(** Two candidates still violated: the loop returns within three iterations. *)
Lemma row_generation_rounds_bound_witness :
  exists res s',
    row_generation
      (t_try (first_violated_separation_oracle three_rows_env identity_functor))
      (t_solve three_rows_env)
      (violations three_rows_env [0; 1; 2] [100; 101; 0] + 1)
      (initial [100; 101; 0] 1%N)
    = Some (res, s').
Proof.
  exact (proj1 (proj2 (@row_generation_rounds_bound (list nat) N nat nat
                         three_rows_env [0; 1; 2] three_rows_monotone
                         (fun w c H => H) three_rows_add_satisfies))
           identity_functor (initial [100; 101; 0] 1%N)
           (@identity_reordering (list nat) N nat nat)).
Defined.

(** The rows added by the run on [three_rows_env] are distinct and satisfied
    at the end. *)
Lemma row_generation_rows_distinct_witness :
  exists evs,
    trace three_rows_final = [] ++ evs /\ NoDup (added_rows evs) /\
    forall c, In c (added_rows evs) ->
      violated three_rows_env [100; 101; 0; 1; 2] c = false.
Proof.
  exact (proj1 (proj2 (@row_generation_rows_distinct (list nat) N nat nat
                         three_rows_env three_rows_monotone
                         three_rows_add_satisfies))
           identity_functor 4 (initial [100; 101] 1%N) OPTIMAL three_rows_final
           (@identity_reordering (list nat) N nat nat) three_rows_run).
Defined.
